(** * mango/markup: the indentation-aware parser

    A shallow embedding of the parser of package [markup] (types [Node],
    [Parser], [TokenGroup]; functions [NewTokenGroup], [addNode],
    [lastNode], [openGroup], [closeGroup], [closeAllGroups], [Parse]) and
    the properties of its tree builder.

    Go pointers to [Node] are addresses into an explicit heap, a list of
    nodes in allocation order; [nil] is [None].  The methods of [*Parser]
    run in a state-and-panic monad over the parser fields and that heap. *)

From Stdlib Require Import ZArith Lia.
From stdpp Require Import base tactics option list strings.

Set Warnings "-register-all".

Local Open Scope Z_scope.
Local Open Scope nat_scope.

(** ** Tokens *)

(** Modelled from the spec: the token kinds.  The declarations of [Token],
    its kind constants and the [Tokens] helpers are not part of the parser
    source; the names are the ones the parser uses. *)
Inductive TokenKind : Set :=
| TOKEN_INDENT
| TOKEN_EOL
| TOKEN_SECTION
| TOKEN_TEXT
| TOKEN_STAR
| TOKEN_UNDERLINE
| TOKEN_LISTITEM
| TOKEN_BLOCKITEM.

#[global] Instance TokenKind_eq_dec : EqDecision TokenKind.
Proof. solve_decision. Defined.

(** Modelled from the spec: a token is a kind with an optional text
    payload ([Token{Kind, Text}]). *)
Record Token : Set := mkToken { Token_Kind : TokenKind; Token_Text : string }.

(** Modelled from the spec: [Token.Is] compares the kind of a token. *)
Definition Is (t : Token) (kind : TokenKind) : bool :=
  bool_decide (Token_Kind t = kind).

(** Modelled from the spec: [Tokens.Are], the lookahead predicate: the next
    tokens match the given kind sequence; nothing is consumed. *)
Fixpoint Are (t : list Token) (kinds : list TokenKind) : bool :=
  match kinds with
  | [] => true
  | kind :: kinds' =>
      match t with
      | [] => false
      | x :: t' => Is x kind && Are t' kinds'
      end
  end.

(** ** Nodes *)

Inductive NodeKind : Set :=
| NODE_GROUP
| NODE_BLOCK
| NODE_SECTION
| NODE_TEXT
| NODE_TEXTBOLD
| NODE_TEXTUNDERLINE
| NODE_LIST
| NODE_LISTITEM
| NODE_SPACE
| NODE_BREAK.

#[global] Instance NodeKind_eq_dec : EqDecision NodeKind.
Proof. solve_decision. Defined.

(** An address of an allocated node, and a nullable pointer. *)
Abbreviation loc := nat (only parsing).
Abbreviation ptr := (option nat) (only parsing).

Record Node : Set := mkNode {
  Kind : NodeKind;
  Text : string;
  Parent : ptr;
  Childs : list loc
}.

Definition set_Parent (q : ptr) (n : Node) : Node :=
  mkNode (Kind n) (Text n) q (Childs n).

(** [n.Childs = append(n.Childs, c)] *)
Definition push_Child (c : loc) (n : Node) : Node :=
  mkNode (Kind n) (Text n) (Parent n) (Childs n ++ [c]).

(** The switch of [Node.IsTextNode]. *)
Definition isTextKind (k : NodeKind) : bool :=
  match k with
  | NODE_TEXT | NODE_TEXTBOLD | NODE_TEXTUNDERLINE => true
  | _ => false
  end.

(** ** The parser state and its monad *)

(** The closure values [Parser.onAdd] can hold.  [Parse] assigns one
    function literal only: the one that adds a [NODE_SPACE] before a text
    node. *)
Inductive Callback : Set := SpaceBeforeText.

Record Parser : Set := mkParser {
  heap : list Node;
  root : ptr;
  curr : ptr;
  onAdd : option Callback
}.

(** Run-time failures.  [Diverge] marks a loop that used up the fuel of
    its model; the theorems below show it is never reached from [Parse]. *)
Inductive Fault : Set := SliceBounds | NilDeref | Diverge.

Inductive Res (A : Type) : Type :=
| Ok (a : A)
| Panic (f : Fault).
Arguments Ok {A} a.
Arguments Panic {A} f.

Definition M (A : Type) : Type := Parser → Res (A * Parser).

Definition ret {A} (a : A) : M A := λ p, Ok (a, p).

Definition bind {A B} (m : M A) (k : A → M B) : M B :=
  λ p, match m p with
       | Ok (a, p') => k a p'
       | Panic f => Panic f
       end.

Definition panic {A} (f : Fault) : M A := λ _, Panic f.

Notation "'do' x <~ m ; k" := (bind m (λ x, k))
  (at level 10, x name, m at level 100, k at level 200,
   format "'[v' 'do'  x  <~  m ; '/' k ']'").
Notation "'run' m ; k" := (bind m (λ _, k))
  (at level 10, m at level 100, k at level 200,
   format "'[v' 'run'  m ; '/' k ']'").

Definition gets {A} (f : Parser → A) : M A := λ p, Ok (f p, p).

Definition set_root (r : ptr) : M unit :=
  λ p, Ok (tt, mkParser (heap p) r (curr p) (onAdd p)).
Definition set_curr (c : ptr) : M unit :=
  λ p, Ok (tt, mkParser (heap p) (root p) c (onAdd p)).
Definition set_onAdd (f : option Callback) : M unit :=
  λ p, Ok (tt, mkParser (heap p) (root p) (curr p) f).
Definition set_heap (h : list Node) : M unit :=
  λ p, Ok (tt, mkParser h (root p) (curr p) (onAdd p)).

(** [&Node{...}]: allocation at the next free address. *)
Definition alloc (n : Node) : M ptr :=
  λ p, Ok (Some (length (heap p)),
           mkParser (heap p ++ [n]) (root p) (curr p) (onAdd p)).

(** Reading through a pointer; a nil pointer panics. *)
Definition load (x : ptr) : M Node :=
  λ p, match x with
       | None => Panic NilDeref
       | Some l =>
           match heap p !! l with
           | Some n => Ok (n, p)
           | None => Panic NilDeref
           end
       end.

(** Writing a field through a pointer. *)
Definition store (x : ptr) (f : Node → Node) : M unit :=
  run load x ;
  match x with
  | None => panic NilDeref
  | Some l => do h <~ gets heap ; set_heap (alter f l h)
  end.

Definition NewNodeWithText (kind : NodeKind) (text : string) : M ptr :=
  alloc (mkNode kind text None []).

Definition NewNode (kind : NodeKind) : M ptr :=
  NewNodeWithText kind "".

(** [func (n *Node) AddChild(c *Node)] *)
Definition AddChild (n c : ptr) : M unit :=
  run store c (set_Parent n) ;
  match c with
  | None => panic NilDeref
  | Some cl => store n (push_Child cl)
  end.

(** [func (n *Node) IsTextNode() bool] *)
Definition IsTextNode (n : ptr) : M bool :=
  do x <~ load n ; ret (isTextKind (Kind x)).

(** ** Line groups *)

Record TokenGroup : Set := mkTokenGroup {
  tokens : list Token;
  level : Z;
  pos : nat
}.

(** The first loop of [NewTokenGroup]: count and skip the leading indents.
    The loop runs at most [len(inpTokens)] times, which is the fuel. *)
Fixpoint indentLoop (fuel : nat) (inpTokens : list Token) (level : nat) : nat :=
  match fuel with
  | 0 => level
  | S fuel' =>
      match inpTokens !! level with
      | None => level
      | Some t =>
          if Is t TOKEN_INDENT
          then indentLoop fuel' inpTokens (S level)
          else level
      end
  end.

(** The second loop of [NewTokenGroup]: the range over [inpTokens[level:]]
    that collects the tokens before the first [TOKEN_EOL]. *)
Fixpoint bodyLoop (rest : list Token) (tokens : list Token) : list Token :=
  match rest with
  | [] => tokens
  | token :: rest' =>
      if Is token TOKEN_EOL then tokens
      else bodyLoop rest' (tokens ++ [token])
  end.

Definition NewTokenGroup (inpTokens : list Token) : TokenGroup * nat :=
  let level := indentLoop (length inpTokens) inpTokens 0 in
  let tokens := bodyLoop (drop level inpTokens) [] in
  (mkTokenGroup tokens (Z.of_nat level) 0, level + length tokens).

(** [func (g *TokenGroup) Tokens() Tokens] *)
Definition Tokens (g : TokenGroup) : list Token :=
  let i := if decide (length (tokens g) ≤ pos g)
           then length (tokens g) else pos g in
  drop i (tokens g).

(** [func (g *TokenGroup) Next() *Token]: the token at the cursor, or nil;
    the group is returned with its cursor advanced. *)
Definition Next (g : TokenGroup) : option Token * TokenGroup :=
  if decide (length (tokens g) ≤ pos g) then (None, g)
  else (tokens g !! pos g, mkTokenGroup (tokens g) (level g) (S (pos g))).

(** [item.Text] on the result of [Next]. *)
Definition textOf (t : option Token) : M string :=
  match t with
  | None => panic NilDeref
  | Some tok => ret (Token_Text tok)
  end.

(** ** Tree building *)

Definition NewParser : Parser := mkParser [] None None None.

(** The body of the function literal stored in [onAdd], with the method it
    calls as a parameter. *)
Definition runCallback (addNode : NodeKind → list string → M ptr)
    (cb : Callback) (n : ptr) : M unit :=
  match cb with
  | SpaceBeforeText =>
      do b <~ IsTextNode n ;
      if b then (run addNode NODE_SPACE [] ; ret tt) else ret tt
  end.

(** The body of [addNode], with the method the callback calls as a
    parameter. *)
Definition addNode_body (self : NodeKind → list string → M ptr)
    (kind : NodeKind) (text : list string) : M ptr :=
  do node <~ match text with
          | [] => NewNode kind
          | t :: _ => NewNodeWithText kind t
          end ;
  do callback <~ gets onAdd ;
  run match callback with
      | Some cb => run set_onAdd None ; runCallback self cb node
      | None => ret tt
      end ;
  do c <~ gets curr ;
  run AddChild c node ;
  ret node.

(** [addNode] calls itself through the callback; [depth] bounds the
    nesting of these calls. *)
Fixpoint addNode_rec (depth : nat) : NodeKind → list string → M ptr :=
  match depth with
  | 0 => λ _ _, panic Diverge
  | S d => addNode_body (addNode_rec d)
  end.

(** [func (p *Parser) addNode(kind int, text ...string) *Node].  The
    callback is cleared before it runs, so two levels are enough
    ([addNode_rec_depth] below). *)
Definition addNode : NodeKind → list string → M ptr := addNode_rec 2.

(** [func (p *Parser) lastNode() *Node] *)
Definition lastNode : M ptr :=
  do c <~ gets curr ;
  do n <~ load c ;
  match last (Childs n) with
  | Some l => ret (Some l)
  | None => ret c
  end.

(** [func (p *Parser) openGroup()] *)
Definition openGroup : M unit :=
  do n <~ addNode NODE_GROUP [] ; set_curr n.

(** The [for] loop of [closeGroup]. *)
Fixpoint closeGroup_loop (fuel : nat) : M unit :=
  match fuel with
  | 0 => panic Diverge
  | S fuel' =>
      do c <~ gets curr ;
      do n <~ load c ;
      match Parent n with
      | None => ret tt
      | Some _ =>
          if decide (Kind n = NODE_GROUP) then ret tt
          else (run set_curr (Parent n) ; closeGroup_loop fuel')
      end
  end.

(** [func (p *Parser) closeGroup()] *)
Definition closeGroup : M unit :=
  do h <~ gets heap ;
  run closeGroup_loop (S (length h)) ;
  do c <~ gets curr ;
  do n <~ load c ;
  match Parent n with
  | None => ret tt
  | Some _ => set_curr (Parent n)
  end.

(** [func (p *Parser) closeAllGroups()] *)
Definition closeAllGroups : M unit :=
  do r <~ gets root ; set_curr r.

(** [func (p *Parser) GetRoot() *Node] *)
Definition GetRoot : M ptr := gets root.

(** ** Parse *)

Definition lift {A} (r : Res A) : M A :=
  λ p, match r with
       | Ok a => Ok (a, p)
       | Panic f => Panic f
       end.

(** The slice expression [s[low:]]: it panics when [low] exceeds [len(s)]. *)
Definition sliceFrom {A} (low : nat) (s : list A) : Res (list A) :=
  if decide (low ≤ length s) then Ok (drop low s) else Panic SliceBounds.

(** The first loop of [Parse]: split the tokens into groups.  Every round
    drops at least one token, so [len(tokens)] rounds are enough fuel. *)
Fixpoint splitLoop (fuel : nat) (tokens : list Token)
    (groups : list TokenGroup) : Res (list TokenGroup) :=
  match tokens with
  | [] => Ok groups
  | _ :: _ =>
      match fuel with
      | 0 => Panic Diverge
      | S fuel' =>
          let '(group, consumed) := NewTokenGroup tokens in
          match sliceFrom (consumed + 1) tokens with
          | Ok tokens' => splitLoop fuel' tokens' (groups ++ [group])
          | Panic f => Panic f
          end
      end
  end.

(** [for ; n > 0; n-- { m }] *)
Fixpoint times (n : nat) (m : M unit) : M unit :=
  match n with
  | 0 => ret tt
  | S n' => run m ; times n' m
  end.

(** The switch on [levelDiff]: close or open groups when the level of the
    line changed. *)
Definition adjustLevel (levelDiff : Z) : M unit :=
  if decide (0 < levelDiff)%Z then times (Z.to_nat levelDiff) openGroup
  else if decide (levelDiff < 0)%Z then times (Z.to_nat (- levelDiff)) closeGroup
  else ret tt.

(** [if group.Tokens().Are(TOKEN_BLOCKITEM) { ... }] *)
Definition blockItem (group : TokenGroup) : M TokenGroup :=
  if Are (Tokens group) [TOKEN_BLOCKITEM] then
    let '(item, group) := Next group in
    do c <~ gets curr ;
    do n <~ load c ;
    run (if decide (Kind n ≠ NODE_BLOCK)
         then do b <~ addNode NODE_BLOCK [] ; set_curr b
         else ret tt) ;
    do text <~ textOf item ;
    run addNode NODE_TEXT [text] ;
    ret group
  else ret group.

(** [if group.Tokens().Are(TOKEN_LISTITEM) { ... }] *)
Definition listItem (group : TokenGroup) : M TokenGroup :=
  if Are (Tokens group) [TOKEN_LISTITEM] then
    let '(item, group) := Next group in
    do c <~ gets curr ;
    do n <~ load c ;
    run match Kind n with
        | NODE_LISTITEM => set_curr (Parent n)
        | NODE_LIST => ret tt
        | _ => do l <~ addNode NODE_LIST [] ; set_curr l
        end ;
    do text <~ textOf item ;
    do li <~ addNode NODE_LISTITEM [text] ;
    run set_curr li ;
    ret group
  else ret group.

(** [if p.lastNode().IsTextNode() { p.onAdd = func ... }] *)
Definition armHook : M unit :=
  do n <~ lastNode ;
  do b <~ IsTextNode n ;
  if b then set_onAdd (Some SpaceBeforeText) else ret tt.

(** The loop that drains the tokens of the line.  Every round consumes a
    token, so one more than the number of tokens is enough fuel. *)
Fixpoint inlineLoop (fuel : nat) (group : TokenGroup) : M unit :=
  match fuel with
  | 0 => panic Diverge
  | S fuel' =>
      match Next group with
      | (None, _) => ret tt
      | (Some token, group) =>
          match Token_Kind token with
          | TOKEN_SECTION =>
              run closeAllGroups ;
              run addNode NODE_SECTION [Token_Text token] ;
              inlineLoop fuel' group
          | TOKEN_TEXT =>
              run addNode NODE_TEXT [Token_Text token] ;
              inlineLoop fuel' group
          | TOKEN_STAR =>
              if Are (Tokens group) [TOKEN_TEXT; TOKEN_STAR] then
                let '(text, group) := Next group in
                let '(_, group) := Next group in
                do s <~ textOf text ;
                run addNode NODE_TEXTBOLD [s] ;
                inlineLoop fuel' group
              else inlineLoop fuel' group
          | TOKEN_UNDERLINE =>
              if Are (Tokens group) [TOKEN_TEXT; TOKEN_UNDERLINE] then
                let '(text, group) := Next group in
                let '(_, group) := Next group in
                do s <~ textOf text ;
                run addNode NODE_TEXTUNDERLINE [s] ;
                inlineLoop fuel' group
              else inlineLoop fuel' group
          | _ => inlineLoop fuel' group
          end
      end
  end.

(** [if p.onAdd != nil { p.onAdd = nil }] *)
Definition clearHook : M unit :=
  do f <~ gets onAdd ;
  match f with
  | Some _ => set_onAdd None
  | None => ret tt
  end.

(** The body of the loop over the groups: it returns the value of
    [lastLevel] for the next round. *)
Definition parseLine (i : nat) (group : TokenGroup) (lastLevel : Z) : M Z :=
  if decide (length (tokens group) = 0 ∧ 0 < i) then
    run closeAllGroups ;
    run addNode NODE_BREAK [] ;
    ret lastLevel
  else
    run adjustLevel (level group - lastLevel)%Z ;
    do group <~ blockItem group ;
    do group <~ listItem group ;
    run armHook ;
    run inlineLoop (S (length (tokens group))) group ;
    run clearHook ;
    ret (level group).

(** [for i, group := range groups { ... }], from index [i] on; the result
    is the last value of [lastLevel]. *)
Fixpoint groupsLoop (i : nat) (groups : list TokenGroup) (lastLevel : Z) : M Z :=
  match groups with
  | [] => ret lastLevel
  | group :: groups' =>
      do lastLevel' <~ parseLine i group lastLevel ;
      groupsLoop (S i) groups' lastLevel'
  end.

(** [func (p *Parser) Parse(tokens []*Token) *Node] *)
Definition Parse (tokens : list Token) : M ptr :=
  do r <~ NewNode NODE_GROUP ;
  run set_root r ;
  do r' <~ gets root ;
  run set_curr r' ;
  if decide (length tokens = 0) then gets root
  else
    do groups <~ lift (splitLoop (length tokens) tokens []) ;
    run groupsLoop 0 groups 0%Z ;
    gets root.

(** ** Reading the tree off the heap *)

(** The tree below a node as the caller of [Parse] sees it through
    [Childs]: kind, text and subtrees in sibling order. *)
Inductive Tree : Set :=
| T (kind : NodeKind) (text : string) (childs : list Tree).

Fixpoint toTree (fuel : nat) (h : list Node) (l : loc) : option Tree :=
  match fuel with
  | 0 => None
  | S fuel' =>
      match h !! l with
      | None => None
      | Some n =>
          match mapM (toTree fuel' h) (Childs n) with
          | None => None
          | Some ts => Some (T (Kind n) (Text n) ts)
          end
      end
  end.

(** [Parse] on a fresh parser, with the returned root read as a tree. *)
Definition ParseTree (tokens : list Token) : Res Tree :=
  match Parse tokens NewParser with
  | Ok (Some r, p) =>
      match toTree (length (heap p)) (heap p) r with
      | Some t => Ok t
      | None => Panic NilDeref
      end
  | Ok (None, _) => Panic NilDeref
  | Panic f => Panic f
  end.

(** * Specification vocabulary *)

(** ** Lines *)

(** What may follow the body of a line: nothing, or a [TOKEN_EOL]. *)
Definition atLineEnd (rest : list Token) : Prop :=
  match rest with
  | [] => True
  | t :: _ => Is t TOKEN_EOL = true
  end.

(** What may follow the leading indents: anything but a [TOKEN_INDENT]. *)
Definition pastIndents (rest : list Token) : Prop :=
  match rest with
  | [] => True
  | t :: _ => Is t TOKEN_INDENT = false
  end.

Definition allIndent (l : list Token) : Prop :=
  Forall (λ t, Is t TOKEN_INDENT = true) l.
Definition noEOL (l : list Token) : Prop :=
  Forall (λ t, Is t TOKEN_EOL = false) l.

(** Every line of the input ends with a [TOKEN_EOL]: the input is empty or
    its last token is one. *)
Definition terminated (tokens : list Token) : Prop :=
  match last tokens with
  | None => True
  | Some t => Is t TOKEN_EOL = true
  end.

(** ** The heap after [addNode] *)

(** The text of the node [addNode] creates from its variadic argument. *)
Definition argText (text : list string) : string :=
  match text with [] => "" | t :: _ => t end.

(** The callback adds a space: the hook is armed and the node is text. *)
Definition fires (p : Parser) (kind : NodeKind) : bool :=
  match onAdd p with
  | Some SpaceBeforeText => isTextKind kind
  | None => false
  end.

Definition push_Childs (cs : list loc) (n : Node) : Node :=
  mkNode (Kind n) (Text n) (Parent n) (Childs n ++ cs).

(** The heap after [addNode] under the node [c]: the new node at the next
    address and, when the callback fires, the space node allocated after
    it but linked before it. *)
Definition grow (h : list Node) (c : loc) (kind : NodeKind) (s : string)
    (space : bool) : list Node :=
  let n := length h in
  if space
  then alter (push_Childs [S n; n]) c
         (h ++ [mkNode kind s (Some c) []; mkNode NODE_SPACE "" (Some c) []])
  else alter (push_Childs [n]) c (h ++ [mkNode kind s (Some c) []]).


Arguments grow : simpl never.

(** The children [grow] links to the node. *)
Definition added (h : list Node) (space : bool) : list loc :=
  if space then [S (length h); length h] else [length h].

(** The parser after [addNode] with [curr] at the node [c]. *)
Definition after_add (p : Parser) (c : loc) (kind : NodeKind)
    (text : list string) : Parser :=
  mkParser (grow (heap p) c kind (argText text) (fires p kind))
    (root p) (Some c) None.

(** ** Weakest preconditions *)

(** [m] runs without panic from [p] and its result satisfies [Q]. *)
Definition wp {A} (m : M A) (Q : A → Parser → Prop) (p : Parser) : Prop :=
  match m p with
  | Ok (a, p') => Q a p'
  | Panic _ => False
  end.

(** ** Well-formed heaps *)

(** The tree shape of the heap of a parser that started at address 0: the
    root is a parentless group; every other node has a parent allocated
    before it and is among the children of that parent; the children of a
    node point back to it; a node is a list item exactly when its parent
    is a list. *)
Record heap_ok (h : list Node) : Prop := {
  ok_root : ∃ n, h !! 0 = Some n ∧ Kind n = NODE_GROUP ∧ Parent n = None;
  ok_parent : ∀ l n, h !! l = Some n → l ≠ 0 →
    ∃ q m, Parent n = Some q ∧ q < l ∧ h !! q = Some m ∧ l ∈ Childs m ∧
           (Kind m = NODE_LIST ↔ Kind n = NODE_LISTITEM);
  ok_childs : ∀ l n c, h !! l = Some n → c ∈ Childs n →
    ∃ m, h !! c = Some m ∧ Parent m = Some l
}.

(** The states of the parser between two steps of [Parse]. *)
Record inv (p : Parser) : Prop := {
  inv_heap : heap_ok (heap p);
  inv_root : root p = Some 0;
  inv_curr : ∃ c n, curr p = Some c ∧ heap p !! c = Some n ∧
                    Kind n ≠ NODE_LIST
}.

(** [h'] keeps the nodes of [h]: kind, text and parent are the same and
    children are only appended. *)
Record extends (h h' : list Node) : Prop := {
  ext_len : length h ≤ length h';
  ext_old : ∀ l n, h !! l = Some n →
    ∃ n', h' !! l = Some n' ∧ Kind n' = Kind n ∧ Text n' = Text n ∧
          Parent n' = Parent n ∧ Childs n `prefix_of` Childs n'
}.

(** The number of space nodes, and the spaces the armed hook can still
    add. *)
Definition spaces (h : list Node) : nat :=
  length (filter (λ n, Kind n = NODE_SPACE) h).
Definition armed (p : Parser) : nat :=
  match onAdd p with Some _ => 1 | None => 0 end.
Definition potential (p : Parser) : nat := spaces (heap p) + armed p.

(** A step of the tree builder from [p] to [p']. *)
Record builds (p p' : Parser) : Prop := {
  b_inv : inv p';
  b_root : root p' = root p;
  b_ext : extends (heap p) (heap p');
  b_pot : potential p' ≤ potential p
}.

(** ** Ancestors *)

(** [ancestor h a l]: following [Parent] from [l] reaches [a]. *)
Inductive ancestor (h : list Node) (a : loc) : loc → Prop :=
| ancestor_refl : ancestor h a a
| ancestor_step l n q :
    h !! l = Some n → Parent n = Some q → ancestor h a q → ancestor h a l.

(** [upTo h x g]: [g] is where the loop of [closeGroup] stops when it
    starts at [x]: the first node on the way up that is a group or has no
    parent. *)
Inductive upTo (h : list Node) : loc → loc → Prop :=
| upTo_here x n :
    h !! x = Some n → Kind n = NODE_GROUP ∨ Parent n = None → upTo h x x
| upTo_step x n q g :
    h !! x = Some n → Kind n ≠ NODE_GROUP → Parent n = Some q →
    upTo h q g → upTo h x g.

(** [climbs h x j g]: the group [g] is the [j]-th group met on the way up
    from [x], counting from 1 and counting [x] itself when it is a
    group. *)
Inductive climbs (h : list Node) : loc → nat → loc → Prop :=
| climbs_top x g n :
    upTo h x g → h !! g = Some n → Kind n = NODE_GROUP → climbs h x 1 g
| climbs_up x g' n q j g :
    upTo h x g' → h !! g' = Some n → Kind n = NODE_GROUP →
    Parent n = Some q → climbs h q j g → climbs h x (S j) g.

(** Where [closeGroup] leaves [curr] once its loop stopped at [g]: at the
    parent of [g], or at [g] when it has none. *)
Definition closeTarget (h : list Node) (g : loc) : loc :=
  match h !! g with
  | Some (mkNode _ _ (Some q) _) => q
  | _ => g
  end.

(** [p'] keeps the place of [curr] among the groups: the loop of
    [closeGroup] stops at the same node from the new [curr] as from the
    old one. *)
Definition keeps (p p' : Parser) : Prop :=
  ∀ x g, curr p = Some x → upTo (heap p) x g →
    ∃ x', curr p' = Some x' ∧ upTo (heap p') x' g.

(** The nodes allocated between [p] and [p'] hang below the node that was
    current in [p] or below the root. *)
Definition fresh_below (p p' : Parser) : Prop :=
  ∀ l n, length (heap p) ≤ l → heap p' !! l = Some n →
    Parent n = curr p ∨ Parent n = root p.

(** ** Cursors *)

(** The group with its cursor moved by one token. *)
Definition advance (g : TokenGroup) : TokenGroup :=
  mkTokenGroup (tokens g) (level g) (S (pos g)).

Definition noSection (l : list Token) : Prop :=
  Forall (λ t, Token_Kind t ≠ TOKEN_SECTION) l.

(** The effect of the tokens of a line on the tree: new nodes hang below
    the old [curr] or the root, and [curr] only moves, to the root, when
    a section token is consumed ([P] says there is none). *)
Definition inlined (P : Prop) (p p' : Parser) : Prop :=
  builds p p' ∧ fresh_below p p' ∧
  (curr p' = curr p ∨ curr p' = root p) ∧ (P → curr p' = curr p).

(** The node below which the [j]-th of a run of groups opened at address
    [base] hangs: the node [c] that was current, then the group before. *)
Definition groupParent (c base j : nat) : nat :=
  match j with
  | 0 => c
  | S j' => base + j'
  end.

(** [p'] differs from [p] in the hook only. *)
Definition same_tree (p p' : Parser) : Prop :=
  heap p' = heap p ∧ root p' = root p ∧ curr p' = curr p.

(** The effect of a line after its change of level, from [p1] to [p']:
    the tree grows, the hook ends cleared having added one space at most;
    without a section token [curr] keeps its place among the groups;
    without a block or list marker the new nodes hang below the old
    [curr] or the root. *)
Definition lineBody (group : TokenGroup) (p1 p' : Parser) : Prop :=
  inv p' ∧ root p' = root p1 ∧ extends (heap p1) (heap p') ∧
  onAdd p' = None ∧ spaces (heap p') ≤ potential p1 + 1 ∧
  (noSection (Tokens group) → keeps p1 p') ∧
  (Are (Tokens group) [TOKEN_BLOCKITEM] = false →
   Are (Tokens group) [TOKEN_LISTITEM] = false →
   fresh_below p1 p' ∧ (curr p' = curr p1 ∨ curr p' = root p1)).

(** The parser after an empty line. *)
Definition after_break (p : Parser) : Parser :=
  match root p with
  | Some r =>
      after_add (mkParser (heap p) (root p) (root p) (onAdd p)) r NODE_BREAK []
  | None => p
  end.

(** What [parseLine] does from [p]: an empty line that is not the first
    adds a break below the root and keeps [lastLevel]; any other line
    changes the level and then runs its body. *)
Definition lineStep (i : nat) (group : TokenGroup) (lastLevel : Z)
    (p : Parser) (l' : Z) (p' : Parser) : Prop :=
  (length (tokens group) = 0 ∧ 0 < i ∧ l' = lastLevel ∧ p' = after_break p) ∨
  (¬ (length (tokens group) = 0 ∧ 0 < i) ∧ l' = level group ∧
   ∃ p1, adjustLevel (level group - lastLevel)%Z p = Ok (tt, p1) ∧
         builds p p1 ∧ lineBody group p1 p').

(** What a whole line does to the parser. *)
Definition lined (p p' : Parser) : Prop :=
  inv p' ∧ root p' = root p ∧ extends (heap p) (heap p') ∧
  onAdd p' = None ∧ spaces (heap p') ≤ potential p + 1.

(** The parser [Parse] starts the lines with: the new root group, which
    is also the current node. *)
Definition init : Parser :=
  mkParser [mkNode NODE_GROUP "" None []] (Some 0) (Some 0) None.

(** Shorthands for tokens in examples. *)
Definition tk (kind : TokenKind) : Token := mkToken kind "".
Definition tx (kind : TokenKind) (text : string) : Token := mkToken kind text.

(** The root of the tree in [p]: a parentless node at the address [Parse]
    returns, above every node of the heap. *)
Definition rooted (p : Parser) : Prop :=
  root p = Some 0 ∧
  (∃ n, heap p !! 0 = Some n ∧ Kind n = NODE_GROUP ∧ Parent n = None) ∧
  ∀ l, l < length (heap p) → ancestor (heap p) 0 l.

(** A line between an increase of the level above [base] and the return
    to [base]: it has tokens, none of them a section token, and its level
    is above [base]. *)
Definition nestedLine (base : Z) (group : TokenGroup) : Prop :=
  tokens group ≠ [] ∧ noSection (tokens group) ∧ (base < level group)%Z.

(** Lines that leave [curr] at the root when they start there: an empty
    line, or a line that does not increase the level and does not start
    with a block or list marker.  [i] and [lastLevel] run as in the loop
    over the groups. *)
Fixpoint flatLines (i : nat) (lastLevel : Z) (lines : list TokenGroup) : Prop :=
  match lines with
  | [] => True
  | group :: lines' =>
      if decide (length (tokens group) = 0 ∧ 0 < i)
      then flatLines (S i) lastLevel lines'
      else (level group ≤ lastLevel)%Z ∧
           Are (Tokens group) [TOKEN_BLOCKITEM] = false ∧
           Are (Tokens group) [TOKEN_LISTITEM] = false ∧
           flatLines (S i) (level group) lines'
  end.
(** * Properties *)

(** ** Line groups *)

Lemma indentLoop_app ind : ∀ fuel pre rest,
  allIndent ind → pastIndents rest → length ind ≤ fuel →
  indentLoop fuel (pre ++ ind ++ rest) (length pre) = length pre + length ind.
Proof.
  induction ind as [|t ind IH]; intros fuel pre rest Hind Hrest Hfuel.
  - simpl. destruct fuel as [|fuel]; simpl; [lia|].
    rewrite lookup_app_r by lia. rewrite Nat.sub_diag.
    destruct rest as [|r rest]; simpl in *; [lia|].
    rewrite Hrest. lia.
  - destruct fuel as [|fuel]; simpl in Hfuel; [lia|].
    inversion Hind as [|? ? Ht Hind']; subst. simpl.
    rewrite lookup_app_r by lia. rewrite Nat.sub_diag. simpl. rewrite Ht.
    specialize (IH fuel (pre ++ [t]) rest Hind' Hrest ltac:(lia)).
    rewrite length_app in IH. simpl in IH.
    rewrite <- app_assoc in IH. simpl in IH.
    replace (S (length pre)) with (length pre + 1) by lia.
    rewrite IH. lia.
Qed.

Lemma bodyLoop_app body : ∀ rest acc,
  noEOL body → atLineEnd rest → bodyLoop (body ++ rest) acc = acc ++ body.
Proof.
  induction body as [|t body IH]; intros rest acc Hbody Hrest; simpl.
  - rewrite app_nil_r. destruct rest as [|r rest]; simpl in *; [done|].
    by rewrite Hrest.
  - inversion Hbody as [|? ? Ht Hbody']; subst. rewrite Ht.
    rewrite IH by done. by rewrite <- app_assoc.
Qed.

(** Every token sequence splits into leading indents, a body without
    [TOKEN_EOL] and a rest that is empty or starts with the [TOKEN_EOL]. *)
Lemma line_split (inp : list Token) :
  ∃ ind body rest, inp = ind ++ body ++ rest ∧
    allIndent ind ∧ pastIndents (body ++ rest) ∧ noEOL body ∧ atLineEnd rest.
Proof.
  assert (Hbody : ∀ l : list Token, ∃ body rest,
            l = body ++ rest ∧ noEOL body ∧ atLineEnd rest).
  { induction l as [|t l (body & rest & -> & Hb & Hr)].
    - exists [], []. repeat split; constructor.
    - destruct (Is t TOKEN_EOL) eqn:Ht.
      + exists [], (t :: body ++ rest). repeat split; [constructor|done].
      + exists (t :: body), rest. repeat split; [by constructor|done]. }
  induction inp as [|t inp (ind & body & rest & -> & Hi & Hp & Hb & Hr)].
  - exists [], [], []. repeat split; constructor.
  - destruct (Is t TOKEN_INDENT) eqn:Ht.
    + exists (t :: ind), body, rest. repeat split; try done. by constructor.
    + destruct (Hbody (t :: ind ++ body ++ rest)) as (b & r & Heq & Hb' & Hr').
      exists [], b, r. simpl. repeat split; try done; [constructor|].
      rewrite <- Heq. done.
Qed.

Lemma NewTokenGroup_app (ind body rest : list Token) :
  allIndent ind → pastIndents (body ++ rest) → noEOL body → atLineEnd rest →
  NewTokenGroup (ind ++ body ++ rest) =
    (mkTokenGroup body (Z.of_nat (length ind)) 0, length ind + length body).
Proof.
  intros Hi Hp Hb Hr. unfold NewTokenGroup.
  pose proof (indentLoop_app ind (length (ind ++ body ++ rest)) []
                (body ++ rest) Hi Hp) as Hloop.
  simpl in Hloop. rewrite Hloop by (rewrite length_app; lia).
  rewrite drop_app_length. by rewrite bodyLoop_app.
Qed.

(** ** Splitting the input into lines *)

Lemma indent_not_EOL t : Is t TOKEN_INDENT = true → Is t TOKEN_EOL = false.
Proof.
  unfold Is. intros H%bool_decide_eq_true. rewrite H.
  by apply bool_decide_eq_false.
Qed.

Lemma line_last_not_EOL ind body t :
  allIndent ind → noEOL body → last (ind ++ body) = Some t →
  Is t TOKEN_EOL = false.
Proof.
  intros Hi Hb Hl.
  assert (Hall : Forall (λ t, Is t TOKEN_EOL = false) (ind ++ body)).
  { apply Forall_app. split; [|done].
    eapply Forall_impl; [exact Hi|]. intros x. apply indent_not_EOL. }
  rewrite Forall_forall in Hall. apply Hall.
  rewrite last_lookup in Hl. by eapply list_elem_of_lookup_2.
Qed.

Lemma terminated_rest (l : list Token) e rest :
  terminated (l ++ e :: rest) ↔
    (rest = [] ∧ Is e TOKEN_EOL = true) ∨ (rest ≠ [] ∧ terminated rest).
Proof.
  unfold terminated. destruct rest as [|r rest].
  - rewrite last_snoc. split; [intros; by left | by intros [[_ ?]|[? _]]].
  - rewrite last_app. rewrite (last_cons_cons e). simpl.
    destruct (last (r :: rest)) eqn:Hl.
    + split; [intros; by right | by intros [[? _]|[_ ?]]].
    + apply last_None in Hl. done.
Qed.

Lemma splitLoop_S fuel (tokens : list Token) groups :
  tokens ≠ [] →
  splitLoop (S fuel) tokens groups =
    let '(group, consumed) := NewTokenGroup tokens in
    match sliceFrom (consumed + 1) tokens with
    | Ok tokens' => splitLoop fuel tokens' (groups ++ [group])
    | Panic f => Panic f
    end.
Proof. by destruct tokens. Qed.

(** One round of the splitting loop on a non-empty input: either no
    [TOKEN_EOL] is left and the slice expression is out of range, or the
    line and its [TOKEN_EOL] are dropped. *)
Lemma split_round (tokens : list Token) :
  tokens ≠ [] →
  ∃ group consumed, NewTokenGroup tokens = (group, consumed) ∧
    ((sliceFrom (consumed + 1) tokens = Panic SliceBounds ∧ ¬ terminated tokens) ∨
     (∃ rest, sliceFrom (consumed + 1) tokens = Ok rest ∧
        length rest < length tokens ∧
        (rest = [] → terminated tokens) ∧
        (rest ≠ [] → (terminated tokens ↔ terminated rest)))).
Proof.
  intros Hne.
  destruct (line_split tokens) as (ind & body & rest & Heq & Hi & Hp & Hb & Hr).
  exists (mkTokenGroup body (Z.of_nat (length ind)) 0), (length ind + length body).
  split; [rewrite Heq; by apply NewTokenGroup_app|].
  destruct rest as [|e rest].
  - left. rewrite app_nil_r in Heq.
    assert (Hlen : length tokens = length ind + length body).
    { rewrite Heq. by rewrite length_app. }
    unfold sliceFrom. rewrite decide_False by lia. split; [done|].
    unfold terminated. destruct (last tokens) as [t|] eqn:Hl.
    + rewrite Heq in Hl.
      pose proof (line_last_not_EOL _ _ _ Hi Hb Hl). congruence.
    + apply last_None in Hl. done.
  - right. exists rest.
    assert (Hlen : length tokens = length ind + length body + S (length rest)).
    { rewrite Heq. rewrite !length_app. simpl. lia. }
    unfold sliceFrom. rewrite decide_True by lia.
    assert (Hdrop : drop (length ind + length body + 1) tokens = rest).
    { rewrite Heq. rewrite app_assoc.
      replace (length ind + length body + 1)
        with (length (ind ++ body) + 1) by (rewrite length_app; lia).
      rewrite drop_app_add. done. }
    rewrite Hdrop. split; [done|]. split; [lia|].
    rewrite Heq, app_assoc. rewrite terminated_rest. simpl in Hr.
    split.
    + intros ->. by left.
    + intros Hrest. split; [by intros [[? _]|[_ ?]] | intros; by right].
Qed.

Lemma splitLoop_ok fuel : ∀ tokens groups,
  terminated tokens → length tokens ≤ fuel →
  ∃ groups', splitLoop fuel tokens groups = Ok groups'.
Proof.
  induction fuel as [|fuel IH]; intros tokens groups Hterm Hfuel.
  - destruct tokens; simpl in *; [eauto | lia].
  - destruct (decide (tokens = [])) as [->|Hne]; [simpl; eauto|].
    rewrite splitLoop_S by done.
    destruct (split_round tokens Hne)
      as (g & n & -> & [[_ Hno]|(rest & -> & Hlen & _ & Hiff)]); [done|].
    apply IH; [|lia].
    destruct (decide (rest = [])) as [->|Hr]; [done|]. by apply Hiff.
Qed.

Lemma splitLoop_panic fuel : ∀ tokens groups,
  tokens ≠ [] → ¬ terminated tokens → length tokens ≤ fuel →
  splitLoop fuel tokens groups = Panic SliceBounds.
Proof.
  induction fuel as [|fuel IH]; intros tokens groups Hne Hterm Hfuel.
  - destruct tokens; simpl in *; [done | lia].
  - rewrite splitLoop_S by done.
    destruct (split_round tokens Hne)
      as (g & n & -> & [[-> _]|(rest & -> & Hlen & Hnil & Hiff)]); [done|].
    destruct (decide (rest = [])) as [Hr|Hr]; [by apply Hnil in Hr|].
    apply IH; [done| |lia]. intros Ht. by apply Hiff in Ht.
Qed.

(** ** The effect of [addNode] on the heap *)

Lemma bind_Ok {A B} (m : M A) (k : A → M B) p a p' :
  m p = Ok (a, p') → bind m k p = k a p'.
Proof. unfold bind. by intros ->. Qed.

Lemma store_eq p l f :
  l < length (heap p) →
  store (Some l) f p =
    Ok (tt, mkParser (alter f l (heap p)) (root p) (curr p) (onAdd p)).
Proof.
  intros Hl. destruct (lookup_lt_is_Some_2 _ _ Hl) as [n Hn].
  unfold store, load, bind. simpl. by rewrite Hn.
Qed.

Lemma AddChild_eq p c x :
  c < length (heap p) → x < length (heap p) →
  AddChild (Some c) (Some x) p =
    Ok (tt, mkParser (alter (push_Child x) c
                        (alter (set_Parent (Some c)) x (heap p)))
              (root p) (curr p) (onAdd p)).
Proof.
  intros Hc Hx. unfold AddChild.
  erewrite bind_Ok by (by apply store_eq).
  rewrite store_eq; [done|]. simpl. by rewrite length_alter.
Qed.

Lemma new_node_eq kind text p :
  match text with
  | [] => NewNode kind
  | t :: _ => NewNodeWithText kind t
  end p =
  Ok (Some (length (heap p)),
      mkParser (heap p ++ [mkNode kind (argText text) None []])
        (root p) (curr p) (onAdd p)).
Proof. by destruct text. Qed.

Lemma alter_push_push c xs y (h : list Node) :
  alter (push_Child y) c (alter (push_Childs xs) c h) =
  alter (push_Childs (xs ++ [y])) c h.
Proof.
  rewrite list_alter_alter_eq. apply list_alter_ext; [|done].
  intros n _. unfold push_Child, push_Childs, compose. simpl.
  by rewrite <- app_assoc.
Qed.

#[local] Arguments addNode_rec : simpl never.

Lemma addNode_rec_plain d p c kind text :
  curr p = Some c → c < length (heap p) → onAdd p = None →
  addNode_rec (S d) kind text p =
    Ok (Some (length (heap p)),
        mkParser (grow (heap p) c kind (argText text) false)
          (root p) (Some c) None).
Proof.
  destruct p as [h r cu o]. simpl. intros -> Hc ->.
  change (addNode_rec (S d)) with (addNode_body (addNode_rec d)).
  unfold addNode_body.
  erewrite bind_Ok by apply new_node_eq. simpl.
  erewrite bind_Ok by reflexivity. simpl.
  erewrite bind_Ok by reflexivity.
  erewrite bind_Ok by reflexivity. simpl.
  erewrite bind_Ok.
  2:{ apply AddChild_eq; simpl; rewrite length_app; simpl; lia. }
  unfold ret, grow. simpl. do 3 f_equal.
  rewrite (alter_app_r_alt _ h) by lia. by rewrite Nat.sub_diag.
Qed.

Lemma addNode_rec_eq d p c kind text :
  curr p = Some c → c < length (heap p) →
  addNode_rec (S (S d)) kind text p =
    Ok (Some (length (heap p)),
        mkParser (grow (heap p) c kind (argText text) (fires p kind))
          (root p) (Some c) None).
Proof.
  intros Hcurr Hc. destruct (onAdd p) as [[]|] eqn:Hhook.
  2:{ unfold fires. rewrite Hhook. by apply addNode_rec_plain. }
  destruct p as [h r cu o]. simpl in *. subst cu o.
  unfold fires. simpl isTextKind.
  change (addNode_rec (S (S d))) with (addNode_body (addNode_rec (S d))).
  unfold addNode_body at 1. simpl.
  erewrite bind_Ok by apply new_node_eq. simpl.
  erewrite bind_Ok by reflexivity. simpl.
  unfold runCallback, IsTextNode.
  assert (Hload : ∀ o, load (Some (length h))
            (mkParser (h ++ [mkNode kind (argText text) None []]) r (Some c) o) =
          Ok (mkNode kind (argText text) None [],
              mkParser (h ++ [mkNode kind (argText text) None []]) r (Some c) o)).
  { intros o. unfold load. simpl. rewrite lookup_app_r by lia.
    by rewrite Nat.sub_diag. }
  destruct (isTextKind kind) eqn:Htext.
  - erewrite bind_Ok.
    2:{ erewrite bind_Ok by reflexivity. simpl.
        erewrite bind_Ok.
        2:{ erewrite bind_Ok by apply Hload. reflexivity. }
        simpl. rewrite Htext.
        erewrite bind_Ok.
        2:{ apply addNode_rec_plain with (c := c); simpl; try done.
            rewrite length_app. simpl. lia. }
        reflexivity. }
    erewrite bind_Ok by reflexivity. simpl.
    erewrite bind_Ok.
    2:{ apply AddChild_eq; simpl; unfold grow;
        rewrite length_alter, !length_app; simpl; lia. }
    unfold ret, grow. simpl. do 3 f_equal.
    rewrite length_app. simpl.
    rewrite (list_alter_alter_ne (set_Parent _) (push_Childs _)) by lia.
    rewrite alter_push_push. simpl.
    replace (length h + 1) with (S (length h)) by lia.
    f_equal. rewrite <- app_assoc. simpl.
    rewrite (alter_app_r_alt _ h) by lia. by rewrite Nat.sub_diag.
  - erewrite bind_Ok.
    2:{ erewrite bind_Ok by reflexivity. simpl.
        erewrite bind_Ok.
        2:{ erewrite bind_Ok by apply Hload. reflexivity. }
        simpl. rewrite Htext. reflexivity. }
    erewrite bind_Ok by reflexivity. simpl.
    erewrite bind_Ok.
    2:{ apply AddChild_eq; simpl; rewrite length_app; simpl; lia. }
    unfold ret, grow. simpl. do 3 f_equal.
    rewrite (alter_app_r_alt _ h) by lia. by rewrite Nat.sub_diag.
Qed.

(** The callback is cleared before it runs: the calls of [addNode] nest
    two deep at most, and more depth changes nothing. *)
Lemma addNode_rec_depth d p c kind text :
  curr p = Some c → c < length (heap p) →
  addNode_rec (S (S d)) kind text p = addNode kind text p.
Proof.
  intros Hcurr Hc. unfold addNode. by rewrite !(addNode_rec_eq _ p c).
Qed.

Lemma addNode_eq p c kind text :
  curr p = Some c → c < length (heap p) →
  addNode kind text p =
    Ok (Some (length (heap p)), after_add p c kind text).
Proof. apply addNode_rec_eq. Qed.

(** ** Weakest preconditions *)

Lemma wp_ok {A} (m : M A) Q p :
  wp m Q p ↔ ∃ a p', m p = Ok (a, p') ∧ Q a p'.
Proof.
  unfold wp. destruct (m p) as [[a p']|f].
  - split; [eauto|]. by intros (? & ? & [= <- <-] & ?).
  - split; [done|]. by intros (? & ? & ? & ?).
Qed.

Lemma wp_eq {A} (m : M A) (Q : A → Parser → Prop) p a p' :
  m p = Ok (a, p') → Q a p' → wp m Q p.
Proof. unfold wp. by intros ->. Qed.

Lemma wp_ret {A} (a : A) (Q : A → Parser → Prop) p : Q a p → wp (ret a) Q p.
Proof. done. Qed.

Lemma wp_bind {A B} (m : M A) (k : A → M B) Q p :
  wp m (λ a p', wp (k a) Q p') p → wp (bind m k) Q p.
Proof. unfold wp, bind. by destruct (m p) as [[a p']|f]. Qed.

Lemma wp_mono {A} (m : M A) (Q Q' : A → Parser → Prop) p :
  wp m Q p → (∀ a p', Q a p' → Q' a p') → wp m Q' p.
Proof. unfold wp. destruct (m p) as [[a p']|f]; auto. Qed.

Lemma wp_load (Q : Node → Parser → Prop) p l n :
  heap p !! l = Some n → Q n p → wp (load (Some l)) Q p.
Proof. unfold wp, load. by intros ->. Qed.

(** ** Lookups in the grown heap *)

Lemma grow_length h c kind s space :
  length (grow h c kind s space) = length h + (if space then 2 else 1).
Proof.
  unfold grow. destruct space; rewrite length_alter, length_app; simpl; lia.
Qed.

Lemma grow_old h c kind s space l n :
  h !! l = Some n →
  grow h c kind s space !! l =
    Some (if decide (l = c) then push_Childs (added h space) n else n).
Proof.
  intros Hl. pose proof (lookup_lt_Some _ _ _ Hl) as Hlt.
  unfold grow, added. destruct space; case_decide; subst;
    rewrite ?list_lookup_alter_eq, ?list_lookup_alter_ne by done;
    rewrite lookup_app_l by done; by rewrite Hl.
Qed.

Lemma grow_new h c kind s space :
  c < length h →
  grow h c kind s space !! length h = Some (mkNode kind s (Some c) []).
Proof.
  intros Hc. unfold grow. destruct space;
    rewrite list_lookup_alter_ne by lia;
    rewrite lookup_app_r by lia; by rewrite Nat.sub_diag.
Qed.

Lemma grow_space h c kind s :
  c < length h →
  grow h c kind s true !! S (length h) =
    Some (mkNode NODE_SPACE "" (Some c) []).
Proof.
  intros Hc. unfold grow. rewrite list_lookup_alter_ne by lia.
  rewrite lookup_app_r by lia.
  by replace (S (length h) - length h) with 1 by lia.
Qed.

(** Every node of the grown heap is an old node, the new node or the
    space. *)
Lemma grow_lookup h c kind s space l n' :
  c < length h →
  grow h c kind s space !! l = Some n' →
  (∃ n, h !! l = Some n ∧
        n' = if decide (l = c) then push_Childs (added h space) n else n) ∨
  (l = length h ∧ n' = mkNode kind s (Some c) []) ∨
  (space = true ∧ l = S (length h) ∧ n' = mkNode NODE_SPACE "" (Some c) []).
Proof.
  intros Hc Hl. pose proof (lookup_lt_Some _ _ _ Hl) as Hlt.
  rewrite grow_length in Hlt.
  destruct (decide (l < length h)) as [Hold|Hnew].
  - left. destruct (lookup_lt_is_Some_2 _ _ Hold) as [n Hn].
    exists n. split; [done|]. rewrite (grow_old _ _ _ _ _ _ _ Hn) in Hl.
    congruence.
  - destruct (decide (l = length h)) as [->|Hne].
    + right. left. rewrite grow_new in Hl by done. split; congruence.
    + right. right. destruct space; [|lia].
      assert (l = S (length h)) as -> by lia.
      rewrite grow_space in Hl by done. repeat split; congruence.
Qed.

(** ** The grown heap is well formed *)

Lemma extends_refl h : extends h h.
Proof. split; [done|]. intros l n Hl. exists n. by repeat split. Qed.

Lemma extends_trans h1 h2 h3 : extends h1 h2 → extends h2 h3 → extends h1 h3.
Proof.
  intros [Hl1 H1] [Hl2 H2]. split; [lia|].
  intros l n Hn. destruct (H1 l n Hn) as (n2 & Hn2 & Hk & Ht & Hp & Hc).
  destruct (H2 l n2 Hn2) as (n3 & Hn3 & Hk' & Ht' & Hp' & Hc').
  exists n3. repeat split; try congruence. by etrans.
Qed.

Lemma grow_extends h c kind s space : extends h (grow h c kind s space).
Proof.
  split; [rewrite grow_length; lia|].
  intros l n Hl. rewrite (grow_old _ _ _ _ _ _ _ Hl).
  eexists. split; [done|]. case_decide; simpl; repeat split; try done.
  by apply prefix_app_r.
Qed.

Lemma grow_ok h c m kind s space :
  heap_ok h → h !! c = Some m →
  (Kind m = NODE_LIST ↔ kind = NODE_LISTITEM) →
  (space = true → Kind m ≠ NODE_LIST) →
  heap_ok (grow h c kind s space).
Proof.
  intros [Hroot Hpar Hch] Hc Hkind Hspace.
  pose proof (lookup_lt_Some _ _ _ Hc) as Hclt.
  assert (Hcnew : grow h c kind s space !! c =
                  Some (push_Childs (added h space) m)).
  { rewrite (grow_old _ _ _ _ _ _ _ Hc). by rewrite decide_True. }
  split.
  - destruct Hroot as (n & Hn & Hk & Hp).
    rewrite (grow_old _ _ _ _ _ _ _ Hn).
    eexists. split; [done|]. by case_decide.
  - intros l n' Hl Hl0.
    destruct (grow_lookup _ _ _ _ _ _ _ Hclt Hl)
      as [(n & Hn & ->)|[[-> ->]|(-> & -> & ->)]].
    + destruct (Hpar l n Hn Hl0) as (q & mq & Hp & Hq & Hmq & Hin & Hiff).
      exists q. eexists. rewrite (grow_old _ _ _ _ _ _ _ Hmq).
      split; [by destruct (decide (l = c))|]. split; [done|]. split; [done|].
      split.
      * destruct (decide (q = c)); simpl; [|done]. apply elem_of_app. by left.
      * by destruct (decide (q = c)), (decide (l = c)).
    + exists c. eexists. rewrite Hcnew. repeat split; try done.
      * simpl. apply elem_of_app. right. unfold added.
        destruct space; repeat constructor.
      * apply Hkind.
      * apply Hkind.
    + exists c. eexists. rewrite Hcnew. repeat split; try done.
      * lia.
      * simpl. apply elem_of_app. right. constructor.
      * simpl. intros Hm. by destruct Hspace.
  - intros l n' x Hl Hx.
    destruct (grow_lookup _ _ _ _ _ _ _ Hclt Hl)
      as [(n & Hn & ->)|[[-> ->]|(-> & -> & ->)]].
    + assert (Hold : x ∈ Childs n →
                ∃ mx, grow h c kind s space !! x = Some mx ∧ Parent mx = Some l).
      { intros Hin. destruct (Hch l n x Hn Hin) as (mx & Hmx & Hpx).
        rewrite (grow_old _ _ _ _ _ _ _ Hmx). eexists. split; [done|].
        by destruct (decide (x = c)). }
      destruct (decide (l = c)) as [->|Hne]; [|by apply Hold].
      simpl in Hx. apply elem_of_app in Hx as [Hx|Hx]; [by apply Hold|].
      unfold added in Hx. destruct space.
      * apply elem_of_cons in Hx as [->|Hx].
        -- rewrite grow_space by done. eauto.
        -- apply list_elem_of_singleton in Hx as ->.
           rewrite grow_new by done. eauto.
      * apply list_elem_of_singleton in Hx as ->.
        rewrite grow_new by done. eauto.
    + simpl in Hx. by apply elem_of_nil in Hx.
    + simpl in Hx. by apply elem_of_nil in Hx.
Qed.

Lemma spaces_app h1 h2 : spaces (h1 ++ h2) = spaces h1 + spaces h2.
Proof. unfold spaces. by rewrite filter_app, length_app. Qed.

Lemma spaces_alter f c h :
  (∀ n, Kind (f n) = Kind n) → spaces (alter f c h) = spaces h.
Proof.
  intros Hf. unfold spaces. revert c.
  induction h as [|n h IH]; intros [|c]; simpl; try done.
  - rewrite !filter_cons. rewrite Hf.
    by destruct (decide (Kind n = NODE_SPACE)).
  - rewrite !filter_cons.
    destruct (decide (Kind n = NODE_SPACE)); simpl; [f_equal|]; apply IH.
Qed.

Lemma grow_spaces h c kind s space :
  kind ≠ NODE_SPACE →
  spaces (grow h c kind s space) = spaces h + (if space then 1 else 0).
Proof.
  intros Hk. unfold grow. destruct space; rewrite spaces_alter by done;
    rewrite spaces_app; unfold spaces at 2; rewrite !filter_cons; simpl;
    rewrite decide_False by done; simpl; rewrite ?filter_nil; simpl; lia.
Qed.

(** ** Steps of the tree builder *)

Lemma builds_refl p : inv p → builds p p.
Proof. intros. split; [done|done|apply extends_refl|done]. Qed.

Lemma builds_trans p1 p2 p3 : builds p1 p2 → builds p2 p3 → builds p1 p3.
Proof.
  intros [? ? ? ?] [? ? ? ?].
  split; [done|congruence|by eapply extends_trans|lia].
Qed.

Lemma inv_curr_lt p c : inv p → curr p = Some c → c < length (heap p).
Proof.
  intros [_ _ (c' & n & Hc & Hn & _)] Hcurr.
  rewrite Hcurr in Hc. injection Hc as <-. by eapply lookup_lt_Some.
Qed.

Lemma inv_curr_some p : inv p → ∃ c n,
  curr p = Some c ∧ heap p !! c = Some n ∧ Kind n ≠ NODE_LIST.
Proof. by intros [_ _ ?]. Qed.

Lemma fires_armed p kind : (if fires p kind then 1 else 0) ≤ armed p.
Proof.
  unfold fires, armed. destruct (onAdd p) as [[]|]; [|done].
  destruct (isTextKind kind); lia.
Qed.

Lemma fires_text p kind : fires p kind = true → isTextKind kind = true.
Proof. unfold fires. by destruct (onAdd p) as [[]|]. Qed.

(** Adding a node below [curr] keeps the invariant, unless the node is a
    list item or a space, which only [Parse] and the callback place. *)
Lemma after_add_builds p c kind text :
  inv p → curr p = Some c → kind ≠ NODE_LISTITEM → kind ≠ NODE_SPACE →
  builds p (after_add p c kind text).
Proof.
  intros Hinv Hcurr Hli Hsp.
  destruct (inv_curr_some p Hinv) as (c' & m & Hc' & Hm & Hk).
  assert (c' = c) as -> by congruence.
  destruct Hinv as [Hok Hroot _]. split.
  - split; simpl; [|done|].
    + eapply grow_ok; [done|done| |done]. split; [done|done].
    + exists c. eexists. split; [done|].
      rewrite (grow_old _ _ _ _ _ _ _ Hm). split; [done|].
      by rewrite decide_True.
  - done.
  - apply grow_extends.
  - unfold potential. simpl. rewrite grow_spaces by done.
    pose proof (fires_armed p kind). unfold armed at 1. simpl. lia.
Qed.

(** ** [closeGroup] *)

Lemma upTo_stop h x g :
  upTo h x g → ∃ n, h !! g = Some n ∧ (Kind n = NODE_GROUP ∨ Parent n = None).
Proof. induction 1; eauto. Qed.

Lemma upTo_fun h x g g' : upTo h x g → upTo h x g' → g = g'.
Proof.
  intros H. revert g'. induction H as [x n Hn Hstop|x n q g Hn Hk Hp _ IH];
    intros g' H'; inversion H' as [? n' Hn' Hstop'|? n' q' ? Hn' Hk' Hp' Hup];
    subst; try done; assert (n' = n) as -> by congruence.
  - destruct Hstop; congruence.
  - destruct Hstop'; congruence.
  - apply IH. congruence.
Qed.

Lemma upTo_extends h h' x g : extends h h' → upTo h x g → upTo h' x g.
Proof.
  intros [_ Hold]. induction 1 as [x n Hn Hstop|x n q g Hn Hk Hp _ IH].
  - destruct (Hold x n Hn) as (n' & Hn' & Hk' & _ & Hp' & _).
    eapply upTo_here; [done|]. rewrite Hk', Hp'. done.
  - destruct (Hold x n Hn) as (n' & Hn' & Hk' & _ & Hp' & _).
    eapply upTo_step; [done| | |done]; congruence.
Qed.

Lemma ok_root_parent h x n q :
  heap_ok h → h !! x = Some n → Parent n = Some q → x ≠ 0.
Proof.
  intros [(r & Hr & _ & Hp) _ _] Hn Hq ->. congruence.
Qed.

Lemma closeGroup_loop_eq h r o fuel : ∀ x,
  heap_ok h → x < fuel → x < length h →
  ∃ g, upTo h x g ∧
       closeGroup_loop fuel (mkParser h r (Some x) o) =
         Ok (tt, mkParser h r (Some g) o).
Proof.
  induction fuel as [|fuel IH]; intros x Hok Hfuel Hx; [lia|].
  destruct (lookup_lt_is_Some_2 _ _ Hx) as [n Hn].
  simpl. erewrite bind_Ok by reflexivity. simpl.
  erewrite bind_Ok by (unfold load; simpl; by rewrite Hn).
  destruct (Parent n) as [q|] eqn:Hp.
  - destruct (decide (Kind n = NODE_GROUP)) as [Hk|Hk].
    + exists x. split; [|done]. eapply upTo_here; eauto.
    + pose proof (ok_root_parent _ _ _ _ Hok Hn Hp) as Hx0.
      destruct (ok_parent _ Hok x n Hn Hx0) as (q' & m & Hq' & Hlt & Hm & _).
      assert (q' = q) as -> by congruence.
      destruct (IH q Hok ltac:(lia) ltac:(lia)) as (g & Hup & Heq).
      exists g. split; [by eapply upTo_step|].
      erewrite bind_Ok by reflexivity. simpl. done.
  - exists x. split; [|done]. eapply upTo_here; eauto.
Qed.

Lemma closeGroup_eq h r o x :
  heap_ok h → x < length h →
  ∃ g, upTo h x g ∧
       closeGroup (mkParser h r (Some x) o) =
         Ok (tt, mkParser h r (Some (closeTarget h g)) o).
Proof.
  intros Hok Hx. unfold closeGroup.
  erewrite bind_Ok by reflexivity. simpl.
  destruct (closeGroup_loop_eq h r o (S (length h)) x Hok ltac:(lia) Hx)
    as (g & Hup & Heq).
  exists g. split; [done|].
  erewrite bind_Ok by exact Heq.
  erewrite bind_Ok by reflexivity. simpl.
  destruct (upTo_stop _ _ _ Hup) as (n & Hn & _).
  erewrite bind_Ok by (unfold load; simpl; by rewrite Hn).
  unfold closeTarget. rewrite Hn. by destruct n as [k t [q|] cs].
Qed.

Lemma closeTarget_kind h x g :
  heap_ok h → upTo h x g →
  ∃ n, h !! closeTarget h g = Some n ∧ Kind n ≠ NODE_LIST.
Proof.
  intros Hok Hup. destruct (upTo_stop _ _ _ Hup) as (n & Hn & Hstop).
  unfold closeTarget. rewrite Hn. destruct n as [k t [q|] cs] eqn:Heqn.
  - assert (Hg0 : g ≠ 0) by (by eapply ok_root_parent).
    destruct (ok_parent _ Hok g _ Hn Hg0) as (q' & m & Hq' & _ & Hm & _ & Hiff).
    simpl in *. injection Hq' as <-. exists m. split; [done|].
    destruct Hstop as [->|?]; [|done]. intros Hl. apply Hiff in Hl. done.
  - exists n. subst n. split; [done|]. simpl in *.
    destruct (decide (g = 0)) as [->|Hg0].
    + destruct (ok_root _ Hok) as (r & Hr & Hk & _).
      rewrite Hn in Hr. injection Hr as <-. simpl in Hk. by rewrite Hk.
    + destruct (ok_parent _ Hok g _ Hn Hg0) as (q' & m & Hq' & _). done.
Qed.

(** ** Cursors *)

Lemma Tokens_drop g : Tokens g = drop (pos g) (tokens g).
Proof.
  unfold Tokens. case_decide; [|done].
  by rewrite drop_all, drop_ge.
Qed.

Lemma Next_Tokens g :
  Next g = match Tokens g with
           | [] => (None, g)
           | t :: _ => (Some t, advance g)
           end.
Proof.
  rewrite Tokens_drop. unfold Next. case_decide as Hpos.
  - by rewrite drop_ge.
  - destruct (lookup_lt_is_Some_2 (tokens g) (pos g) ltac:(lia)) as [t Ht].
    rewrite Ht. by rewrite (drop_S _ _ _ Ht).
Qed.

Lemma Tokens_advance g : Tokens (advance g) = tail (Tokens g).
Proof.
  rewrite !Tokens_drop. simpl. generalize (pos g) as n.
  induction (tokens g) as [|t l IH]; intros [|n]; simpl; done.
Qed.

Lemma Tokens_length g : length (Tokens g) ≤ length (tokens g).
Proof. rewrite Tokens_drop, length_drop. lia. Qed.

Lemma Are_Next g kind kinds :
  Are (Tokens g) (kind :: kinds) = true →
  ∃ t, Next g = (Some t, advance g) ∧ Tokens g = t :: Tokens (advance g) ∧
       Token_Kind t = kind ∧ Are (Tokens (advance g)) kinds = true.
Proof.
  rewrite Next_Tokens, Tokens_advance. simpl.
  destruct (Tokens g) as [|t l]; [done|]. simpl.
  intros [Ht Hl]%andb_true_iff. exists t. repeat split; try done.
  unfold Is in Ht. by apply bool_decide_eq_true in Ht.
Qed.

(** ** The invariant along the primitive steps *)

Lemma inv_mk h r c o n :
  heap_ok h → r = Some 0 → h !! c = Some n → Kind n ≠ NODE_LIST →
  inv (mkParser h r (Some c) o).
Proof. intros. split; simpl; eauto. Qed.

Lemma potential_mk h r c c' o : 
  potential (mkParser h r c o) = potential (mkParser h r c' o).
Proof. done. Qed.

Lemma wp_addNode kind text (Q : option nat → Parser → Prop) p :
  inv p →
  (∀ c, curr p = Some c → c < length (heap p) →
        Q (Some (length (heap p))) (after_add p c kind text)) →
  wp (addNode kind text) Q p.
Proof.
  intros Hinv HQ. destruct (inv_curr_some p Hinv) as (c & n & Hc & Hn & _).
  pose proof (lookup_lt_Some _ _ _ Hn) as Hlt.
  eapply wp_eq; [by apply addNode_eq|]. by apply HQ.
Qed.

Lemma fires_group p : fires p NODE_GROUP = false.
Proof. unfold fires. by destruct (onAdd p) as [[]|]. Qed.

(** The parser after [openGroup] with [curr] at the node [c]. *)
Lemma openGroup_eq p c :
  curr p = Some c → c < length (heap p) →
  openGroup p =
    Ok (tt, mkParser (grow (heap p) c NODE_GROUP "" false) (root p)
              (Some (length (heap p))) None).
Proof.
  intros Hc Hlt. unfold openGroup.
  erewrite bind_Ok by (by apply addNode_eq).
  unfold after_add, set_curr. simpl. by rewrite fires_group.
Qed.

Lemma openGroup_builds p c :
  inv p → curr p = Some c →
  builds p (mkParser (grow (heap p) c NODE_GROUP "" false) (root p)
              (Some (length (heap p))) None).
Proof.
  intros Hinv Hc.
  pose proof (after_add_builds p c NODE_GROUP [] Hinv Hc) as [Hi _ He Hp];
    [done|done|].
  unfold after_add in *. rewrite fires_group in *. simpl in *.
  pose proof (inv_curr_lt _ _ Hinv Hc) as Hlt.
  split; [|done|done|done].
  destruct Hi as [Hok Hr _]. simpl in *.
  eapply inv_mk; [done|done|by apply grow_new|done].
Qed.

Lemma closeGroup_builds h r o x g :
  inv (mkParser h r (Some x) o) → upTo h x g →
  builds (mkParser h r (Some x) o) (mkParser h r (Some (closeTarget h g)) o).
Proof.
  intros [Hok Hr _] Hup. simpl in *.
  destruct (closeTarget_kind _ _ _ Hok Hup) as (n & Hn & Hk).
  split; [by eapply inv_mk|done|apply extends_refl|done].
Qed.

Lemma wp_closeGroup (Q : unit → Parser → Prop) p x :
  inv p → curr p = Some x →
  (∀ g, upTo (heap p) x g →
        builds p (mkParser (heap p) (root p)
                    (Some (closeTarget (heap p) g)) (onAdd p)) →
        Q tt (mkParser (heap p) (root p)
                (Some (closeTarget (heap p) g)) (onAdd p))) →
  wp closeGroup Q p.
Proof.
  destruct p as [h r c o]. simpl. intros Hinv -> HQ.
  pose proof (inv_curr_lt _ _ Hinv eq_refl) as Hlt. simpl in Hlt.
  destruct (closeGroup_eq h r o x (inv_heap _ Hinv) Hlt) as (g & Hup & Heq).
  eapply wp_eq; [exact Heq|]. apply HQ; [done|].
  by apply closeGroup_builds.
Qed.

Lemma wp_openGroup (Q : unit → Parser → Prop) p :
  inv p →
  (∀ c, curr p = Some c → c < length (heap p) →
        builds p (mkParser (grow (heap p) c NODE_GROUP "" false) (root p)
                    (Some (length (heap p))) None) →
        Q tt (mkParser (grow (heap p) c NODE_GROUP "" false) (root p)
                (Some (length (heap p))) None)) →
  wp openGroup Q p.
Proof.
  intros Hinv HQ. destruct (inv_curr_some p Hinv) as (c & n & Hc & Hn & _).
  pose proof (lookup_lt_Some _ _ _ Hn) as Hlt.
  eapply wp_eq; [by apply openGroup_eq|]. apply HQ; try done.
  by apply openGroup_builds.
Qed.

(** ** Climbing through the groups *)

Lemma climbs_pos h x j g : climbs h x j g → 0 < j.
Proof. destruct 1; lia. Qed.

Lemma climbs_extends h h' x j g :
  extends h h' → climbs h x j g → climbs h' x j g.
Proof.
  intros Hext. induction 1 as [x g n Hup Hn Hk|x g' n q j g Hup Hn Hk Hp _ IH].
  - destruct (ext_old _ _ Hext g n Hn) as (n' & Hn' & Hk' & _).
    eapply climbs_top; [by eapply upTo_extends|done|congruence].
  - destruct (ext_old _ _ Hext g' n Hn) as (n' & Hn' & Hk' & _ & Hp' & _).
    apply (climbs_up h' x g' n' q j g);
      [by eapply upTo_extends|done|congruence|congruence|done].
Qed.

(** The first step of a climb only depends on where the loop of
    [closeGroup] stops. *)
Lemma climbs_keeps p p' x j g :
  keeps p p' → extends (heap p) (heap p') →
  curr p = Some x → climbs (heap p) x j g →
  ∃ x', curr p' = Some x' ∧ climbs (heap p') x' j g.
Proof.
  intros Hk Hext Hc Hcl.
  inversion Hcl as [? ? n Hup Hn Hkind|? g' n q j' ? Hup Hn Hkind Hp Hrest];
    subst; destruct (Hk x _ Hc Hup) as (x' & Hx' & Hup'); exists x';
    (split; [done|]).
  - destruct (ext_old _ _ Hext g n Hn) as (n' & Hn' & Hk' & _).
    eapply climbs_top; [done|done|congruence].
  - destruct (ext_old _ _ Hext g' n Hn) as (n' & Hn' & Hk' & _ & Hp' & _).
    apply (climbs_up _ x' g' n' q j' g); [done|done|congruence|congruence|].
    by eapply climbs_extends.
Qed.

Lemma keeps_refl p : keeps p p.
Proof. intros x g Hc Hup. eauto. Qed.

Lemma keeps_trans p1 p2 p3 : keeps p1 p2 → keeps p2 p3 → keeps p1 p3.
Proof.
  intros H12 H23 x g Hc Hup.
  destruct (H12 x g Hc Hup) as (x2 & Hc2 & Hup2). eauto.
Qed.

(** The same [curr] in a heap that extends the old one. *)
Lemma keeps_same p p' :
  curr p' = curr p → extends (heap p) (heap p') → keeps p p'.
Proof.
  intros Hc Hext x g Hx Hup. exists x. split; [congruence|].
  by eapply upTo_extends.
Qed.

(** [curr] moved to a new node below the old one that is not a group. *)
Lemma keeps_below p p' x' n' :
  extends (heap p) (heap p') →
  curr p' = Some x' → heap p' !! x' = Some n' →
  Kind n' ≠ NODE_GROUP → Parent n' = curr p →
  keeps p p'.
Proof.
  intros Hext Hc' Hn' Hk Hp x g Hx Hup. exists x'. split; [done|].
  apply (upTo_step _ x' n' x g); [done|done|congruence|].
  by eapply upTo_extends.
Qed.

(** ** The tokens of a line *)

Lemma fresh_below_same p p' : heap p' = heap p → fresh_below p p'.
Proof.
  intros Heq l n Hl Hn. rewrite Heq in Hn. apply lookup_lt_Some in Hn. lia.
Qed.

Lemma after_add_fresh p c kind text :
  curr p = Some c → c < length (heap p) →
  fresh_below p (after_add p c kind text).
Proof.
  intros Hc Hlt l n Hl Hn. left. rewrite Hc. simpl in Hn.
  destruct (grow_lookup _ _ _ _ _ _ _ Hlt Hn)
    as [(n0 & Hn0 & _)|[[_ ->]|(_ & _ & ->)]]; [|done|done].
  apply lookup_lt_Some in Hn0. lia.
Qed.

Lemma inlined_refl P p : inv p → inlined P p p.
Proof.
  intros. split; [by apply builds_refl|]. split; [by apply fresh_below_same|].
  split; [by left|done].
Qed.

Lemma inlined_trans (P P1 P2 : Prop) p1 p2 p3 :
  inlined P1 p1 p2 → inlined P2 p2 p3 → (P → P1 ∧ P2) → inlined P p1 p3.
Proof.
  intros (Hb1 & Hf1 & Hc1 & HP1) (Hb2 & Hf2 & Hc2 & HP2) HP.
  pose proof (b_root _ _ Hb1) as Hr.
  split; [by eapply builds_trans|]. split; [|split].
  - intros l n Hl Hn.
    destruct (decide (l < length (heap p2))) as [Hlt|Hge].
    + destruct (lookup_lt_is_Some_2 _ _ Hlt) as [n2 Hn2].
      destruct (ext_old _ _ (b_ext _ _ Hb2) l n2 Hn2) as (n' & Hn' & _ & _ & Hp & _).
      assert (n' = n) as -> by congruence. rewrite Hp. by eapply Hf1.
    + destruct (Hf2 l n ltac:(lia) Hn) as [Hp|Hp]; rewrite Hp.
      * destruct Hc1 as [->| ->]; auto.
      * right. done.
  - destruct Hc2 as [->| ->]; [done|]. right. done.
  - intros HPP. destruct (HP HPP) as [H1 H2]. rewrite HP2, HP1; done.
Qed.

Lemma inlined_add P p kind text :
  inv p → kind ≠ NODE_LISTITEM → kind ≠ NODE_SPACE →
  ∀ c, curr p = Some c → inlined P p (after_add p c kind text).
Proof.
  intros Hinv Hli Hsp c Hc. pose proof (inv_curr_lt _ _ Hinv Hc) as Hlt.
  split; [by apply after_add_builds|]. split; [by apply after_add_fresh|].
  simpl. split; [by left|done].
Qed.

(** [closeAllGroups] *)
Lemma inlined_root p :
  inv p → inlined False p (mkParser (heap p) (root p) (root p) (onAdd p)).
Proof.
  intros Hinv. pose proof Hinv as [Hok Hr _].
  destruct (ok_root _ Hok) as (n & Hn & Hk & _).
  split; [|split; [by apply fresh_below_same|split; [by right|done]]].
  split; [|done|apply extends_refl|done].
  rewrite Hr. eapply inv_mk; [done|done|done|]. by rewrite Hk.
Qed.

Lemma noSection_cons t l :
  noSection (t :: l) ↔ Token_Kind t ≠ TOKEN_SECTION ∧ noSection l.
Proof. unfold noSection. by rewrite Forall_cons. Qed.

Lemma wp_inlined_add (P P' : Prop) kind text (k : M unit) p :
  inv p → kind ≠ NODE_LISTITEM → kind ≠ NODE_SPACE → (P → P') →
  (∀ p1, inv p1 → wp k (λ _ p', inlined P' p1 p') p1) →
  wp (run addNode kind text ; k) (λ _ p', inlined P p p') p.
Proof.
  intros Hinv Hli Hsp HP Hk. apply wp_bind. apply wp_addNode; [done|].
  intros c Hc Hlt.
  pose proof (inlined_add True p kind text Hinv Hli Hsp c Hc) as Hadd.
  eapply wp_mono; [apply Hk, Hadd|]. simpl. intros _ p' Hin.
  eapply inlined_trans; [exact Hadd|exact Hin|auto].
Qed.

Lemma inlineLoop_spec fuel : ∀ group p,
  inv p → length (Tokens group) < fuel →
  wp (inlineLoop fuel group)
     (λ _ p', inlined (noSection (Tokens group)) p p') p.
Proof.
  induction fuel as [|fuel IH]; intros g p Hinv Hfuel; [lia|].
  simpl. rewrite Next_Tokens.
  destruct (Tokens g) as [|t ts] eqn:HT.
  { apply wp_ret. by apply inlined_refl. }
  pose proof (Tokens_advance g) as Hadv. rewrite HT in Hadv. simpl in Hadv.
  simpl in Hfuel.
  assert (Hskip : Token_Kind t ≠ TOKEN_SECTION →
            wp (inlineLoop fuel (advance g))
               (λ _ p', inlined (noSection (t :: ts)) p p') p).
  { intros Hns. eapply wp_mono; [apply IH; [done|rewrite Hadv; lia]|].
    simpl. intros _ p' Hin. rewrite Hadv in Hin.
    eapply inlined_trans; [by apply (inlined_refl True)|exact Hin|].
    intros [_ ?]%noSection_cons. done. }
  assert (Hpair : ∀ kind close,
            kind ≠ NODE_LISTITEM → kind ≠ NODE_SPACE →
            Token_Kind t ≠ TOKEN_SECTION →
            wp (if Are (Tokens (advance g)) [TOKEN_TEXT; close]
                then
                  let '(text, group) := Next (advance g) in
                  let '(_, group) := Next group in
                  do s <~ textOf text ;
                  run addNode kind [s] ;
                  inlineLoop fuel group
                else inlineLoop fuel (advance g))
               (λ _ p', inlined (noSection (t :: ts)) p p') p).
  { intros kind close Hli Hsp Hns.
    destruct (Are (Tokens (advance g)) [TOKEN_TEXT; close]) eqn:Hare;
      [|by apply Hskip].
    destruct (Are_Next _ _ _ Hare) as (t1 & -> & HT1 & _ & Hare1).
    destruct (Are_Next _ _ _ Hare1) as (t2 & -> & HT2 & _ & _).
    apply wp_bind. apply wp_ret.
    apply wp_inlined_add with (P' := noSection (Tokens (advance (advance (advance g)))));
      try done.
    - rewrite Hadv in HT1. rewrite HT1, HT2.
      intros (_ & (_ & (_ & ?)%noSection_cons)%noSection_cons)%noSection_cons.
      done.
    - intros p1 Hinv1. apply IH; [done|].
      rewrite Hadv in HT1. rewrite HT1 in Hfuel. rewrite HT2 in Hfuel.
      simpl in Hfuel. lia. }
  destruct (Token_Kind t) eqn:Hkind; try (by apply Hskip).
  - (* TOKEN_SECTION *)
    apply wp_bind. eapply wp_eq; [reflexivity|].
    pose proof (inlined_root p Hinv) as Hroot.
    set (p0 := mkParser (heap p) (root p) (root p) (onAdd p)) in *.
    pose proof (b_inv _ _ (proj1 Hroot)) as Hinv0.
    eapply wp_mono.
    { apply wp_inlined_add with (P := False) (P' := False); try done.
      intros p1 Hinv1. eapply wp_mono; [apply IH; [done|rewrite Hadv; lia]|].
      simpl. intros _ p' Hin.
      eapply inlined_trans; [by apply (inlined_refl True)|exact Hin|done]. }
    simpl. intros _ p' Hin.
    eapply inlined_trans; [exact Hroot|exact Hin|].
    intros [? _]%noSection_cons. done.
  - (* TOKEN_TEXT *)
    apply wp_inlined_add with (P' := noSection ts); try done.
    + by intros [_ ?]%noSection_cons.
    + intros p1 Hinv1. eapply wp_mono; [apply IH; [done|rewrite Hadv; lia]|].
      simpl. intros _ p' Hin. by rewrite Hadv in Hin.
  - (* TOKEN_STAR *) by apply Hpair.
  - (* TOKEN_UNDERLINE *) by apply Hpair.
Qed.

(** ** Block items and list items *)

Lemma wp_elim {A} (m : M A) (Q : A → Parser → Prop) p a p' :
  wp m Q p → m p = Ok (a, p') → Q a p'.
Proof. unfold wp. intros H Heq. by rewrite Heq in H. Qed.

Lemma fires_not_text p kind : isTextKind kind = false → fires p kind = false.
Proof. unfold fires. by destruct (onAdd p) as [[]|]. Qed.

(** [p.curr = p.addNode(kind)] for a node that is neither text, nor a
    list, a list item or a space. *)
Lemma descend_builds p c kind :
  inv p → curr p = Some c →
  kind ≠ NODE_LISTITEM → kind ≠ NODE_SPACE → kind ≠ NODE_LIST →
  isTextKind kind = false →
  builds p (mkParser (grow (heap p) c kind "" false) (root p)
              (Some (length (heap p))) None).
Proof.
  intros Hinv Hc Hli Hsp Hl Htext.
  pose proof (after_add_builds p c kind [] Hinv Hc Hli Hsp) as [Hi _ He Hp].
  unfold after_add in *. rewrite fires_not_text in * by done. simpl in *.
  pose proof (inv_curr_lt _ _ Hinv Hc) as Hlt.
  split; [|done|done|done].
  destruct Hi as [Hok Hr _]. simpl in *.
  eapply inv_mk; [done|done|by apply grow_new|done].
Qed.

Lemma descend_keeps p c kind :
  curr p = Some c → c < length (heap p) → kind ≠ NODE_GROUP →
  keeps p (mkParser (grow (heap p) c kind "" false) (root p)
             (Some (length (heap p))) None).
Proof.
  intros Hc Hlt Hk.
  eapply keeps_below; simpl; [apply grow_extends|done|by apply grow_new|done|done].
Qed.

Lemma blockItem_spec group p :
  inv p →
  wp (blockItem group)
     (λ group' p', builds p p' ∧ keeps p p' ∧
        tokens group' = tokens group ∧ level group' = level group ∧
        Tokens group' `suffix_of` Tokens group ∧
        (Are (Tokens group) [TOKEN_BLOCKITEM] = false → group' = group ∧ p' = p)) p.
Proof.
  intros Hinv. unfold blockItem.
  destruct (Are (Tokens group) [TOKEN_BLOCKITEM]) eqn:Hare.
  2:{ apply wp_ret. split; [by apply builds_refl|].
      split; [apply keeps_refl|]. by repeat split. }
  destruct (Are_Next _ _ _ Hare) as (t & -> & HT & _ & _).
  destruct (inv_curr_some p Hinv) as (c & n & Hc & Hn & Hk).
  pose proof (lookup_lt_Some _ _ _ Hn) as Hlt.
  apply wp_bind. eapply wp_eq; [reflexivity|]. rewrite Hc.
  apply wp_bind. eapply wp_load; [exact Hn|].
  assert (Hfin : ∀ p1, builds p p1 → keeps p p1 →
            wp (do text <~ textOf (Some t) ;
                run addNode NODE_TEXT [text] ;
                ret (advance group))
               (λ group' p', builds p p' ∧ keeps p p' ∧
                  tokens group' = tokens group ∧ level group' = level group ∧
                  Tokens group' `suffix_of` Tokens group ∧
                  (true = false → group' = group ∧ p' = p)) p1).
  { intros p1 Hb1 Hk1. apply wp_bind. apply wp_ret. apply wp_bind.
    pose proof (b_inv _ _ Hb1) as Hinv1.
    apply wp_addNode; [done|]. intros c1 Hc1 Hlt1. apply wp_ret.
    pose proof (after_add_builds p1 c1 NODE_TEXT [Token_Text t] Hinv1 Hc1) as Hb2.
    split; [eapply builds_trans; [done|by apply Hb2]|].
    split; [|repeat split; try done].
    - eapply keeps_trans; [done|]. apply keeps_same; [done|].
      apply grow_extends.
    - rewrite HT. by exists [t]. }
  apply wp_bind. destruct (decide (Kind n ≠ NODE_BLOCK)) as [Hnb|Hb].
  - apply wp_bind. eapply wp_eq; [by apply addNode_eq|].
    eapply wp_eq; [reflexivity|]. unfold after_add. simpl.
    rewrite fires_not_text by done.
    apply Hfin; [by apply descend_builds|by apply descend_keeps].
  - apply wp_ret. apply Hfin; [by apply builds_refl|apply keeps_refl].
Qed.

(** A new list with its first item below [curr]. *)
Lemma list_new_builds p c s :
  inv p → curr p = Some c →
  let p' := mkParser
              (grow (grow (heap p) c NODE_LIST "" false) (length (heap p))
                 NODE_LISTITEM s false)
              (root p) (Some (S (length (heap p)))) None in
  builds p p' ∧ keeps p p'.
Proof.
  intros Hinv Hc. simpl.
  destruct (inv_curr_some p Hinv) as (c' & m & Hc' & Hm & Hk).
  assert (c' = c) as -> by congruence.
  pose proof (lookup_lt_Some _ _ _ Hm) as Hlt.
  destruct Hinv as [Hok Hroot _].
  set (h1 := grow (heap p) c NODE_LIST "" false).
  assert (Hlen1 : length h1 = S (length (heap p))).
  { unfold h1. rewrite grow_length. lia. }
  assert (Hnew1 : h1 !! length (heap p) =
                  Some (mkNode NODE_LIST "" (Some c) [])).
  { by apply grow_new. }
  assert (Hok1 : heap_ok h1).
  { eapply grow_ok; [done|done| |done]. split; [done|done]. }
  set (h2 := grow h1 (length (heap p)) NODE_LISTITEM s false).
  assert (Hnew2 : h2 !! S (length (heap p)) =
                  Some (mkNode NODE_LISTITEM s (Some (length (heap p))) [])).
  { unfold h2. rewrite <- Hlen1. apply grow_new. lia. }
  assert (Hext : extends (heap p) h2).
  { eapply extends_trans; apply grow_extends. }
  split.
  - split; simpl.
    + eapply inv_mk; [|done|exact Hnew2|done].
      eapply grow_ok; [done|exact Hnew1|done|done].
    + done.
    + done.
    + unfold potential. simpl. unfold h2, h1.
      rewrite !grow_spaces by done. unfold armed. simpl. lia.
  - intros x g Hx Hup. simpl in *. rewrite Hc in Hx. injection Hx as <-.
    exists (S (length (heap p))). split; [done|].
    eapply upTo_step; [exact Hnew2|done|done|].
    eapply upTo_step.
    + unfold h2. rewrite (grow_old _ _ _ _ _ _ _ Hnew1). done.
    + by case_decide.
    + by case_decide.
    + by eapply upTo_extends.
Qed.

(** One more item in the list of the item at [curr]. *)
Lemma list_next_builds p c n q s :
  inv p → curr p = Some c → heap p !! c = Some n →
  Kind n = NODE_LISTITEM → Parent n = Some q →
  let p' := mkParser (grow (heap p) q NODE_LISTITEM s false)
              (root p) (Some (length (heap p))) None in
  q < length (heap p) ∧ builds p p' ∧ keeps p p'.
Proof.
  intros Hinv Hc Hn Hk Hp. simpl. destruct Hinv as [Hok Hroot _].
  pose proof (ok_root_parent _ _ _ _ Hok Hn Hp) as Hc0.
  destruct (ok_parent _ Hok c n Hn Hc0) as (q' & m & Hq' & _ & Hm & _ & Hiff).
  assert (q' = q) as -> by congruence.
  pose proof (lookup_lt_Some _ _ _ Hm) as Hlt.
  assert (Hnew : grow (heap p) q NODE_LISTITEM s false !! length (heap p) =
                 Some (mkNode NODE_LISTITEM s (Some q) [])).
  { by apply grow_new. }
  split; [done|]. split.
  - split; simpl.
    + eapply inv_mk; [|done|exact Hnew|done].
      eapply grow_ok; [done|exact Hm| |done]. split; [done|]. by rewrite Hiff.
    + done.
    + apply grow_extends.
    + unfold potential. simpl. rewrite grow_spaces by done.
      unfold armed. simpl. lia.
  - intros x g Hx Hup. simpl in *. rewrite Hc in Hx. injection Hx as <-.
    exists (length (heap p)). split; [done|].
    eapply upTo_step; [exact Hnew|done|done|].
    eapply upTo_extends; [apply grow_extends|].
    inversion Hup as [? n' Hn' Hstop|? n' q' ? Hn' Hk' Hp' Hup']; subst;
      assert (n' = n) as -> by congruence.
    + destruct Hstop; congruence.
    + congruence.
Qed.

Lemma listItem_spec group p :
  inv p →
  wp (listItem group)
     (λ group' p', builds p p' ∧ keeps p p' ∧
        tokens group' = tokens group ∧ level group' = level group ∧
        Tokens group' `suffix_of` Tokens group ∧
        (Are (Tokens group) [TOKEN_LISTITEM] = false → group' = group ∧ p' = p)) p.
Proof.
  intros Hinv. unfold listItem.
  destruct (Are (Tokens group) [TOKEN_LISTITEM]) eqn:Hare.
  2:{ apply wp_ret. split; [by apply builds_refl|].
      split; [apply keeps_refl|]. by repeat split. }
  destruct (Are_Next _ _ _ Hare) as (t & -> & HT & _ & _).
  destruct (inv_curr_some p Hinv) as (c & n & Hc & Hn & Hk).
  pose proof (lookup_lt_Some _ _ _ Hn) as Hlt.
  apply wp_bind. eapply wp_eq; [reflexivity|]. rewrite Hc.
  apply wp_bind. eapply wp_load; [exact Hn|].
  assert (Hsuf : Tokens (advance group) `suffix_of` Tokens group).
  { rewrite HT. by exists [t]. }
  assert (Hnew :
    wp (run (do l <~ addNode NODE_LIST [] ; set_curr l) ;
        do text <~ textOf (Some t) ;
        do li <~ addNode NODE_LISTITEM [text] ;
        run set_curr li ;
        ret (advance group))
       (λ group' p', builds p p' ∧ keeps p p' ∧
          tokens group' = tokens group ∧ level group' = level group ∧
          Tokens group' `suffix_of` Tokens group ∧
          (true = false → group' = group ∧ p' = p)) p).
  { apply wp_bind. apply wp_bind. eapply wp_eq; [by apply addNode_eq|].
    eapply wp_eq; [reflexivity|]. unfold after_add. simpl.
    rewrite fires_not_text by done.
    apply wp_bind. apply wp_ret. apply wp_bind.
    eapply wp_eq.
    { apply addNode_eq with (c := length (heap p)); simpl; [done|].
      rewrite grow_length. lia. }
    apply wp_bind. eapply wp_eq; [reflexivity|]. apply wp_ret.
    unfold after_add. simpl. unfold fires. simpl.
    rewrite grow_length.
    replace (length (heap p) + 1) with (S (length (heap p))) by lia.
    destruct (list_new_builds p c (Token_Text t) Hinv Hc) as [Hb Hkeep].
    do 5 (split; [done|]). done. }
  destruct (Kind n) eqn:Hkind; try exact Hnew; [done|].
  (* NODE_LISTITEM *)
  destruct (Parent n) as [q|] eqn:Hp.
  2:{ exfalso. destruct Hinv as [Hok _ _].
      destruct (decide (c = 0)) as [->|Hc0].
      - destruct (ok_root _ Hok) as (r & Hr & Hkr & _). congruence.
      - destruct (ok_parent _ Hok c n Hn Hc0) as (? & ? & ? & _). congruence. }
  destruct (list_next_builds p c n q (Token_Text t) Hinv Hc Hn Hkind Hp)
    as (Hq & Hb & Hkeep).
  apply wp_bind. eapply wp_eq; [reflexivity|].
  apply wp_bind. apply wp_ret. apply wp_bind.
  eapply wp_eq; [by apply addNode_eq with (c := q)|].
  apply wp_bind. eapply wp_eq; [reflexivity|]. apply wp_ret.
  unfold after_add. simpl. unfold fires. simpl.
  rewrite (fires_not_text p NODE_LISTITEM eq_refl :
             match onAdd p with
             | Some SpaceBeforeText => false
             | None => false
             end = false).
  do 5 (split; [done|]). done.
Qed.

(** ** Opening and closing groups *)

Lemma times_open n : ∀ p c,
  inv p → curr p = Some c →
  wp (times n openGroup)
     (λ _ p', builds p p' ∧
        length (heap p') = length (heap p) + n ∧
        curr p' = Some (groupParent c (length (heap p)) n) ∧
        ∀ j, j < n → ∃ nd,
          heap p' !! (length (heap p) + j) = Some nd ∧
          Kind nd = NODE_GROUP ∧ Text nd = "" ∧
          Parent nd = Some (groupParent c (length (heap p)) j)) p.
Proof.
  induction n as [|n IH]; intros p c Hinv Hc.
  { apply wp_ret. split; [by apply builds_refl|].
    split; [lia|]. split; [done|]. intros j Hj. lia. }
  simpl. apply wp_bind. apply wp_openGroup; [done|].
  intros c' Hc' Hlt Hb. assert (c' = c) as -> by congruence.
  set (p1 := mkParser (grow (heap p) c NODE_GROUP "" false) (root p)
               (Some (length (heap p))) None) in *.
  assert (Hlen1 : length (heap p1) = S (length (heap p))).
  { simpl. rewrite grow_length. lia. }
  eapply wp_mono; [apply (IH p1 (length (heap p))); [apply Hb|done]|].
  simpl. intros _ p' (Hb' & Hlen & Hcurr & Hnodes).
  rewrite grow_length in Hlen, Hcurr, Hnodes.
  split; [by eapply builds_trans|]. split; [lia|]. split.
  - rewrite Hcurr. f_equal. destruct n; simpl; lia.
  - intros [|j] Hj.
    + destruct (ext_old _ _ (b_ext _ _ Hb') (length (heap p))
                  (mkNode NODE_GROUP "" (Some c) []))
        as (nd & Hnd & Hk & Ht & Hp & _).
      { simpl. by apply grow_new. }
      exists nd. rewrite Nat.add_0_r. done.
    + destruct (Hnodes j ltac:(lia)) as (nd & Hnd & Hk & Ht & Hp).
      exists nd. split; [|split; [done|split; [done|]]].
      * rewrite <- Hnd. f_equal. lia.
      * rewrite Hp. f_equal. destruct j; simpl; lia.
Qed.

Lemma upTo_root h g : heap_ok h → upTo h 0 g → g = 0.
Proof.
  intros Hok Hup. destruct (ok_root _ Hok) as (r & Hr & Hk & Hp).
  inversion Hup as [|? n q ? Hn Hkn]; subst; [done|]. congruence.
Qed.

Lemma closeTarget_root h : heap_ok h → closeTarget h 0 = 0.
Proof.
  intros Hok. destruct (ok_root _ Hok) as (r & Hr & Hk & Hp).
  unfold closeTarget. rewrite Hr. destruct r; simpl in *. by subst.
Qed.

Lemma closeTarget_parent h g n q :
  h !! g = Some n → Parent n = Some q → closeTarget h g = q.
Proof.
  intros Hn Hp. unfold closeTarget. rewrite Hn. destruct n; simpl in *.
  by subst.
Qed.

Lemma times_close n : ∀ p,
  inv p →
  wp (times n closeGroup)
     (λ _ p', builds p p' ∧ heap p' = heap p ∧ onAdd p' = onAdd p ∧
        (n = 0 → p' = p) ∧
        (curr p = Some 0 → curr p' = Some 0) ∧
        ∀ x j g, curr p = Some x → climbs (heap p) x j g →
          (n < j → ∃ x', curr p' = Some x' ∧ climbs (heap p) x' (j - n) g) ∧
          (n = j → curr p' = Some (closeTarget (heap p) g))) p.
Proof.
  induction n as [|n IH]; intros p Hinv.
  { apply wp_ret. split; [by apply builds_refl|].
    split; [done|]. split; [done|]. split; [done|]. split; [done|].
    intros x j g Hx Hcl. split.
    - intros _. exists x. by rewrite Nat.sub_0_r.
    - intros <-. apply climbs_pos in Hcl. lia. }
  simpl. apply wp_bind.
  destruct (inv_curr_some p Hinv) as (x & nx & Hx & _).
  eapply wp_closeGroup; [done|done|]. intros g1 Hup Hb.
  set (p1 := mkParser (heap p) (root p) (Some (closeTarget (heap p) g1))
               (onAdd p)) in *.
  eapply wp_mono; [apply (IH p1), Hb|].
  simpl. intros _ p' (Hb' & Hheap & Hhook & Hzero & Hroot & Hclimb).
  split; [by eapply builds_trans|]. split; [done|]. split; [done|].
  split; [done|]. split.
  - intros H0. apply Hroot. rewrite Hx in H0. injection H0 as ->.
    rewrite (upTo_root _ _ (inv_heap _ Hinv) Hup).
    by rewrite closeTarget_root by apply Hinv.
  - intros x0 j g Hx0 Hcl. rewrite Hx in Hx0. injection Hx0 as <-.
    inversion Hcl as [? ? ng Hup0 Hng Hk|? g' ng q j' ? Hup0 Hng Hk Hp Hrest];
      subst; pose proof (upTo_fun _ _ _ _ Hup Hup0) as ->.
    + split; [lia|]. intros [= ->]. by rewrite Hzero.
    + rewrite (closeTarget_parent _ _ _ _ Hng Hp) in *.
      destruct (Hclimb q j' g eq_refl Hrest) as [Hlt Heq].
      split.
      * intros Hn. apply Hlt. lia.
      * intros [= ->]. by apply Heq.
Qed.

Lemma adjustLevel_spec levelDiff p :
  inv p → wp (adjustLevel levelDiff) (λ _ p', builds p p') p.
Proof.
  intros Hinv. unfold adjustLevel.
  destruct (decide (0 < levelDiff)%Z); [|destruct (decide (levelDiff < 0)%Z)].
  - destruct (inv_curr_some p Hinv) as (c & n & Hc & _).
    eapply wp_mono; [by apply times_open|]. by intros _ p' [? _].
  - eapply wp_mono; [by apply times_close|]. by intros _ p' [? _].
  - apply wp_ret. by apply builds_refl.
Qed.

(** ** The hook at the start and at the end of a line *)

Lemma same_tree_refl p : same_tree p p.
Proof. done. Qed.

Lemma same_tree_inv p p' : same_tree p p' → inv p → inv p'.
Proof.
  intros (Hh & Hr & Hc) [Hok Hroot Hcurr].
  split; [by rewrite Hh|by rewrite Hr|by rewrite Hh, Hc].
Qed.

Lemma armHook_spec p :
  inv p → wp armHook (λ _ p', same_tree p p') p.
Proof.
  intros Hinv. destruct (inv_curr_some p Hinv) as (c & n & Hc & Hn & _).
  unfold armHook, lastNode. apply wp_bind. apply wp_bind.
  eapply wp_eq; [reflexivity|]. rewrite Hc.
  apply wp_bind. eapply wp_load; [exact Hn|].
  assert (Hfin : ∀ l m, heap p !! l = Some m →
            wp (do b <~ IsTextNode (Some l) ;
                if b then set_onAdd (Some SpaceBeforeText) else ret tt)
               (λ _ p', same_tree p p') p).
  { intros l m Hm. unfold IsTextNode. apply wp_bind. apply wp_bind.
    eapply wp_load; [exact Hm|]. apply wp_ret.
    destruct (isTextKind (Kind m)); [by eapply wp_eq|by apply wp_ret]. }
  destruct (last (Childs n)) as [l|] eqn:Hlast.
  - apply wp_ret.
    assert (Hin : l ∈ Childs n).
    { rewrite last_lookup in Hlast. by eapply list_elem_of_lookup_2. }
    destruct (ok_childs _ (inv_heap _ Hinv) c n l Hn Hin) as (m & Hm & _).
    by eapply Hfin.
  - apply wp_ret. by eapply Hfin.
Qed.

Lemma clearHook_eq p :
  clearHook p = Ok (tt, mkParser (heap p) (root p) (curr p) None).
Proof.
  unfold clearHook, bind, gets. destruct p as [h r c [f|]]; done.
Qed.

(** ** A line *)

Lemma same_tree_keeps p p' : same_tree p p' → keeps p p'.
Proof.
  intros (Hh & _ & Hc). apply keeps_same; [done|]. rewrite Hh.
  apply extends_refl.
Qed.

Lemma armed_le p : armed p ≤ 1.
Proof. unfold armed. destruct (onAdd p); lia. Qed.

Lemma noSection_suffix l1 l2 : l1 `suffix_of` l2 → noSection l2 → noSection l1.
Proof.
  intros [k ->] H. unfold noSection in *. by apply Forall_app in H as [_ ?].
Qed.

Lemma lineBody_intro group p1 :
  inv p1 →
  wp (do group <~ blockItem group ;
      do group <~ listItem group ;
      run armHook ;
      run inlineLoop (S (length (tokens group))) group ;
      run clearHook ;
      ret (level group))
     (λ l' p', l' = level group ∧ lineBody group p1 p') p1.
Proof.
  intros Hinv1. apply wp_bind.
  eapply wp_mono; [by apply blockItem_spec|].
  cbv beta. intros g1 p2 (Hb2 & Hk2 & Htok1 & Hlev1 & Hsuf1 & Hsame1).
  apply wp_bind. eapply wp_mono; [apply listItem_spec, Hb2|].
  cbv beta. intros g2 p3 (Hb3 & Hk3 & Htok2 & Hlev2 & Hsuf2 & Hsame2).
  apply wp_bind. eapply wp_mono; [apply armHook_spec, Hb3|].
  cbv beta. intros _ p4 Hsame4.
  pose proof (same_tree_inv _ _ Hsame4 (b_inv _ _ Hb3)) as Hinv4.
  apply wp_bind. eapply wp_mono.
  { apply inlineLoop_spec; [exact Hinv4|]. pose proof (Tokens_length g2). lia. }
  cbv beta. intros _ p5 (Hb5 & Hf5 & Hc5 & Hns5).
  apply wp_bind. eapply wp_eq; [apply clearHook_eq|]. apply wp_ret.
  split; [congruence|].
  destruct Hsame4 as (Hh4 & Hr4 & Hc4).
  pose proof (builds_trans _ _ _ Hb2 Hb3) as Hb13.
  assert (Hext : extends (heap p1) (heap p5)).
  { eapply extends_trans; [apply Hb13|]. rewrite <- Hh4. apply Hb5. }
  split.
  { eapply same_tree_inv; [|apply Hb5]. done. }
  split; [simpl; rewrite (b_root _ _ Hb5), Hr4; apply Hb13|].
  split; [done|]. split; [done|]. split.
  { simpl. pose proof (b_pot _ _ Hb5) as H5. pose proof (b_pot _ _ Hb13) as H13.
    unfold potential in *. rewrite Hh4 in H5. pose proof (armed_le p4). lia. }
  split.
  - intros Hns. eapply keeps_trans; [exact Hk2|].
    eapply keeps_trans; [exact Hk3|].
    eapply keeps_trans; [by apply same_tree_keeps|].
    eapply keeps_trans; [|by apply (same_tree_keeps p5)].
    apply keeps_same; [|apply Hb5]. apply Hns5.
    eapply noSection_suffix; [|exact Hns]. by etrans.
  - intros Hnb Hnl. destruct (Hsame1 Hnb) as [-> ->].
    destruct (Hsame2 Hnl) as [-> ->]. split.
    + intros l n Hl Hn. simpl in Hn. rewrite <- Hh4 in Hl.
      destruct (Hf5 l n Hl Hn) as [Hp|Hp]; rewrite Hp; [left|right]; done.
    + simpl. destruct Hc5 as [->| ->]; [left|right]; done.
Qed.

Lemma after_break_eq p r :
  root p = Some r → r < length (heap p) →
  (run closeAllGroups ; run addNode NODE_BREAK [] ; ret tt) p =
    Ok (tt, after_break p).
Proof.
  intros Hr Hlt. unfold after_break. rewrite Hr.
  erewrite bind_Ok by reflexivity.
  erewrite bind_Ok; [done|]. rewrite Hr. by rewrite (addNode_eq _ r).
Qed.

Lemma parseLine_spec i group lastLevel p :
  inv p →
  wp (parseLine i group lastLevel)
     (λ l' p', lineStep i group lastLevel p l' p') p.
Proof.
  intros Hinv. unfold parseLine.
  destruct (decide (length (tokens group) = 0 ∧ 0 < i)) as [[Hemp Hi]|Hne].
  - pose proof (inv_root _ Hinv) as Hr.
    assert (Hlt : 0 < length (heap p)).
    { destruct (ok_root _ (inv_heap _ Hinv)) as (n & Hn & _).
      by eapply lookup_lt_Some. }
    apply wp_bind. eapply wp_eq; [reflexivity|].
    apply wp_bind. eapply wp_eq; [apply addNode_eq with (c := 0); done|].
    apply wp_ret. left. unfold after_break. by rewrite Hr.
  - apply wp_bind.
    destruct (proj1 (wp_ok _ _ _) (adjustLevel_spec (level group - lastLevel) p Hinv))
      as ([] & p1 & Heq & Hb).
    eapply wp_eq; [exact Heq|].
    eapply wp_mono; [apply lineBody_intro, Hb|].
    simpl. intros l' p' [-> Hbody]. right.
    split; [done|]. split; [done|]. by exists p1.
Qed.

Lemma after_break_builds p : inv p → builds p (after_break p).
Proof.
  intros Hinv. unfold after_break.
  pose proof (inlined_root p Hinv) as [Hb _].
  rewrite (inv_root _ Hinv) in *.
  eapply builds_trans; [exact Hb|].
  apply after_add_builds; [apply Hb|done|done|done].
Qed.

Lemma after_break_hook p : inv p → onAdd (after_break p) = None.
Proof. intros Hinv. unfold after_break. by rewrite (inv_root _ Hinv). Qed.

Lemma lineStep_lined i group lastLevel p l' p' :
  inv p → lineStep i group lastLevel p l' p' → lined p p'.
Proof.
  intros Hinv [(_ & _ & _ & ->)|(_ & _ & p1 & _ & Hb & Hbody)].
  - pose proof (after_break_builds p Hinv) as [Hi Hr He Hp].
    pose proof (after_break_hook p Hinv) as Hh.
    split; [done|]. split; [done|]. split; [done|]. split; [done|].
    unfold potential, armed in *. rewrite Hh in Hp.
    destruct (onAdd p); lia.
  - destruct Hbody as (Hi & Hr & He & Hh & Hs & _).
    split; [done|]. split; [by rewrite Hr, (b_root _ _ Hb)|].
    split; [eapply extends_trans; [apply Hb|done]|]. split; [done|].
    pose proof (b_pot _ _ Hb). lia.
Qed.

(** ** All the lines *)

Lemma groupsLoop_spec groups : ∀ i lastLevel p,
  inv p →
  wp (groupsLoop i groups lastLevel)
     (λ _ p', inv p' ∧ root p' = root p ∧ extends (heap p) (heap p')) p.
Proof.
  induction groups as [|group groups IH]; intros i lastLevel p Hinv.
  { apply wp_ret. split; [done|]. split; [done|]. apply extends_refl. }
  simpl. apply wp_bind.
  eapply wp_mono; [by apply parseLine_spec|].
  cbv beta. intros l' p1 Hstep.
  destruct (lineStep_lined _ _ _ _ _ _ Hinv Hstep) as (Hi1 & Hr1 & He1 & _).
  eapply wp_mono; [by apply IH|].
  cbv beta. intros _ p' (Hi & Hr & He).
  split; [done|]. split; [congruence|]. by eapply extends_trans.
Qed.

Lemma inv_init : inv init.
Proof.
  split; [|done|by exists 0; eexists]. split.
  - by eexists.
  - intros [|l] n Hl Hl0; [done|]. done.
  - intros [|l] n c Hl Hc; [|done]. injection Hl as <-. simpl in Hc.
    by apply elem_of_nil in Hc.
Qed.

(** [Parse] on a fresh parser, unfolded to its two loops. *)
Lemma Parse_eq (tokens : list Token) :
  Parse tokens NewParser =
    if decide (length tokens = 0) then Ok (Some 0, init)
    else match splitLoop (length tokens) tokens [] with
         | Ok groups =>
             match groupsLoop 0 groups 0%Z init with
             | Ok (_, p) => Ok (root p, p)
             | Panic f => Panic f
             end
         | Panic f => Panic f
         end.
Proof.
  unfold Parse. erewrite bind_Ok by reflexivity.
  erewrite bind_Ok by reflexivity. erewrite bind_Ok by reflexivity.
  erewrite bind_Ok by reflexivity. simpl.
  case_decide; [done|]. unfold bind, lift.
  destruct (splitLoop _ _ _) as [groups|f]; [|done].
  fold init. by destruct (groupsLoop 0 groups 0%Z init) as [[? ?]|].
Qed.

(** Whatever [Parse] returns is the root of a well-formed heap. *)
Lemma Parse_inv (tokens : list Token) r p :
  Parse tokens NewParser = Ok (r, p) → inv p ∧ r = Some 0.
Proof.
  rewrite Parse_eq. case_decide.
  { intros [= <- <-]. split; [apply inv_init|done]. }
  destruct (splitLoop _ _ _) as [groups|f]; [|done].
  pose proof (groupsLoop_spec groups 0 0%Z init inv_init) as Hwp.
  unfold wp in Hwp. destruct (groupsLoop 0 groups 0%Z init) as [[l p']|]; [|done].
  destruct Hwp as (Hinv & Hr & _). intros [= <- <-]. split; [done|].
  apply Hinv.
Qed.

(** [Parse] returns when every line ends with its [TOKEN_EOL]. *)
Lemma Parse_total (tokens : list Token) :
  terminated tokens → ∃ p, Parse tokens NewParser = Ok (Some 0, p).
Proof.
  intros Hterm. rewrite Parse_eq. case_decide; [eauto|].
  destruct (splitLoop_ok (length tokens) tokens [] Hterm) as [groups ->]; [done|].
  pose proof (groupsLoop_spec groups 0 0%Z init inv_init) as Hwp.
  unfold wp in Hwp. destruct (groupsLoop 0 groups 0%Z init) as [[l p']|]; [|done].
  destruct Hwp as (Hinv & Hr & _). exists p'. by rewrite Hr.
Qed.

(** [Parse] panics in its slice expression when the last line has no
    [TOKEN_EOL]. *)
Lemma Parse_panic (tokens : list Token) :
  tokens ≠ [] → ¬ terminated tokens →
  Parse tokens NewParser = Panic SliceBounds.
Proof.
  intros Hne Hterm. rewrite Parse_eq. rewrite decide_False.
  - by rewrite splitLoop_panic.
  - by destruct tokens.
Qed.

(** ** Nested lines *)

(** A run of groups opened one below the other, seen from a climb that
    reached the node they were opened at. *)
Lemma chain_climbs h base c n x j0 g :
  (∀ j, j < n → ∃ nd, h !! (base + j) = Some nd ∧ Kind nd = NODE_GROUP ∧
                      Parent nd = Some (groupParent c base j)) →
  (c = x ∧ climbs h x j0 g ∨ j0 = 0 ∧ g = base) →
  ∀ j, j < n → climbs h (base + j) (j0 + S j) g.
Proof.
  intros Hnodes Hstart j. induction j as [|j IH]; intros Hj.
  - destruct (Hnodes 0 Hj) as (nd & Hnd & Hk & Hp). simpl in Hp.
    assert (Hup : upTo h (base + 0) (base + 0)) by (eapply upTo_here; eauto).
    destruct Hstart as [[-> Hcl]|[-> ->]].
    + replace (j0 + 1) with (S j0) by lia.
      by apply (climbs_up h (base + 0) (base + 0) nd x j0 g).
    + simpl. rewrite Nat.add_0_r in *. by eapply climbs_top.
  - destruct (Hnodes (S j) Hj) as (nd & Hnd & Hk & Hp). simpl in Hp.
    assert (Hup : upTo h (base + S j) (base + S j)) by (eapply upTo_here; eauto).
    replace (j0 + S (S j)) with (S (j0 + S j)) by lia.
    apply (climbs_up h _ (base + S j) nd (base + j) (j0 + S j) g); try done.
    apply IH. lia.
Qed.

Lemma adjust_climbs levelDiff p x j g :
  inv p → curr p = Some x → climbs (heap p) x j g →
  (0 < Z.of_nat j + levelDiff)%Z →
  wp (adjustLevel levelDiff)
     (λ _ p', builds p p' ∧
        ∃ x', curr p' = Some x' ∧
          climbs (heap p') x' (Z.to_nat (Z.of_nat j + levelDiff)) g) p.
Proof.
  intros Hinv Hx Hcl Hpos. unfold adjustLevel.
  destruct (decide (0 < levelDiff)%Z) as [Hup|Hnup];
    [|destruct (decide (levelDiff < 0)%Z) as [Hdown|Hsame]].
  - eapply wp_mono; [by apply (times_open _ p x)|]. cbv beta.
    intros _ p' (Hb & Hlen & Hcurr & Hnodes). split; [done|].
    destruct (Z.to_nat levelDiff) as [|n] eqn:Hn; [lia|].
    simpl in Hcurr. eexists. split; [exact Hcurr|].
    replace (Z.to_nat (Z.of_nat j + levelDiff)) with (j + S n) by lia.
    eapply (chain_climbs _ _ x (S n) x); [|left; split; [done|]|lia].
    + intros j1 Hj1. destruct (Hnodes j1 Hj1) as (nd & ? & ? & _ & ?). eauto.
    + eapply climbs_extends; [apply Hb|done].
  - eapply wp_mono; [by apply times_close|]. cbv beta.
    intros _ p' (Hb & Hheap & _ & _ & _ & Hclimb). split; [done|].
    destruct (Hclimb x j g Hx Hcl) as [Hlt _].
    destruct Hlt as (x' & Hx' & Hcl'); [lia|]. exists x'. split; [done|].
    rewrite Hheap.
    by replace (Z.to_nat (Z.of_nat j + levelDiff))
      with (j - Z.to_nat (- levelDiff)) by lia.
  - apply wp_ret. split; [by apply builds_refl|]. exists x. split; [done|].
    by replace (Z.to_nat (Z.of_nat j + levelDiff)) with j by lia.
Qed.

Lemma noSection_Tokens group : noSection (tokens group) → noSection (Tokens group).
Proof.
  intros H. eapply noSection_suffix; [|exact H].
  rewrite Tokens_drop. apply suffix_drop.
Qed.

(** A nested line moves [curr] to the depth its level asks for. *)
Lemma nested_line i group lastLevel base p x g :
  inv p → curr p = Some x → (base < lastLevel)%Z →
  climbs (heap p) x (Z.to_nat (lastLevel - base)) g →
  nestedLine base group →
  wp (parseLine i group lastLevel)
     (λ l' p', l' = level group ∧ inv p' ∧ extends (heap p) (heap p') ∧
        ∃ x', curr p' = Some x' ∧
          climbs (heap p') x' (Z.to_nat (level group - base)) g) p.
Proof.
  intros Hinv Hx Hbase Hcl (Hne & Hns & Hlev).
  eapply wp_mono; [by apply parseLine_spec|]. cbv beta.
  intros l' p' [(Hemp & _)|(_ & -> & p1 & Heq & Hb & Hbody)].
  { destruct (tokens group); [done|simpl in Hemp; lia]. }
  split; [done|].
  pose proof (adjust_climbs (level group - lastLevel) p x _ g Hinv Hx Hcl
                ltac:(lia)) as Hadj.
  apply (wp_elim _ _ _ _ _ Hadj) in Heq as (_ & x1 & Hx1 & Hcl1).
  destruct Hbody as (Hi & _ & He & _ & _ & Hkeep & _).
  split; [done|]. split; [eapply extends_trans; [apply Hb|done]|].
  destruct (climbs_keeps p1 p' x1 _ g (Hkeep (noSection_Tokens _ Hns)) He Hx1 Hcl1)
    as (x' & Hx' & Hcl').
  exists x'. split; [done|].
  by replace (Z.to_nat (level group - base))
    with (Z.to_nat (Z.of_nat (Z.to_nat (lastLevel - base)) +
                    (level group - lastLevel))) by lia.
Qed.

Lemma nested_lines groups : ∀ i lastLevel base p x g,
  inv p → curr p = Some x → (base < lastLevel)%Z →
  climbs (heap p) x (Z.to_nat (lastLevel - base)) g →
  Forall (nestedLine base) groups →
  wp (groupsLoop i groups lastLevel)
     (λ l' p', (base < l')%Z ∧ inv p' ∧ extends (heap p) (heap p') ∧
        (∀ group, last groups = Some group → l' = level group) ∧
        (groups = [] → l' = lastLevel) ∧
        ∃ x', curr p' = Some x' ∧
          climbs (heap p') x' (Z.to_nat (l' - base)) g) p.
Proof.
  induction groups as [|group groups IH];
    intros i lastLevel base p x g Hinv Hx Hbase Hcl Hall.
  { apply wp_ret. split; [done|]. split; [done|].
    split; [apply extends_refl|]. split; [done|]. split; [done|]. eauto. }
  apply Forall_cons in Hall as [Hnest Hall]. simpl. apply wp_bind.
  eapply wp_mono; [by eapply nested_line|]. cbv beta.
  intros l1 p1 (-> & Hinv1 & He1 & x1 & Hx1 & Hcl1).
  pose proof Hnest as (_ & _ & Hlev).
  eapply wp_mono; [by eapply (IH (S i) (level group) base p1 x1 g)|]. cbv beta.
  intros l' p' (Hb' & Hinv' & He' & Hlast & Hnil & Hx').
  split; [done|]. split; [done|]. split; [by eapply extends_trans|].
  split; [|split; [done|done]].
  intros group' Hg. destruct groups as [|g2 groups].
  - simpl in Hg. injection Hg as <-. by apply Hnil.
  - apply Hlast. by rewrite last_cons_cons in Hg.
Qed.

(** ** Lines at the root *)

Lemma adjust_root levelDiff p :
  inv p → curr p = Some 0 → (levelDiff ≤ 0)%Z →
  wp (adjustLevel levelDiff)
     (λ _ p', heap p' = heap p ∧ curr p' = Some 0) p.
Proof.
  intros Hinv Hc Hle. unfold adjustLevel. rewrite decide_False by lia.
  destruct (decide (levelDiff < 0)%Z).
  - eapply wp_mono; [by apply times_close|]. cbv beta.
    intros _ p' (_ & Hh & _ & _ & Hroot & _). auto.
  - by apply wp_ret.
Qed.

Lemma fresh_root_trans (h h1 h2 : list Node) :
  (∀ x n, length h ≤ x → h1 !! x = Some n → Parent n = Some 0) →
  extends h1 h2 →
  (∀ x n, length h1 ≤ x → h2 !! x = Some n → Parent n = Some 0) →
  ∀ x n, length h ≤ x → h2 !! x = Some n → Parent n = Some 0.
Proof.
  intros H1 Hext H2 x n Hx Hn.
  destruct (decide (x < length h1)) as [Hlt|Hge]; [|apply (H2 x); [lia|done]].
  destruct (lookup_lt_is_Some_2 _ _ Hlt) as [n1 Hn1].
  destruct (ext_old _ _ Hext x n1 Hn1) as (n' & Hn' & _ & _ & Hp & _).
  assert (n' = n) as -> by congruence. rewrite Hp. by eapply H1.
Qed.

Lemma flat_lines lines : ∀ i lastLevel p,
  inv p → curr p = Some 0 → flatLines i lastLevel lines →
  wp (groupsLoop i lines lastLevel)
     (λ _ p', inv p' ∧ curr p' = Some 0 ∧ extends (heap p) (heap p') ∧
        ∀ x n, length (heap p) ≤ x → heap p' !! x = Some n →
               Parent n = Some 0) p.
Proof.
  induction lines as [|group lines IH]; intros i lastLevel p Hinv Hc Hflat.
  { apply wp_ret. split; [done|]. split; [done|]. split; [apply extends_refl|].
    intros x n Hx Hn. apply lookup_lt_Some in Hn. lia. }
  pose proof (inv_root _ Hinv) as Hr.
  simpl. apply wp_bind. eapply wp_mono; [by apply parseLine_spec|]. cbv beta.
  intros l1 p1 Hstep. simpl in Hflat.
  assert (Hline : inv p1 ∧ curr p1 = Some 0 ∧ extends (heap p) (heap p1) ∧
            (∀ x n, length (heap p) ≤ x → heap p1 !! x = Some n →
                    Parent n = Some 0) ∧
            flatLines (S i) l1 lines).
  { destruct Hstep as [(Hemp & Hi & -> & ->)|(Hne & -> & p0 & Heq & Hb & Hbody)].
    - rewrite decide_True in Hflat by done.
      pose proof (after_break_builds p Hinv) as [Hi1 _ He1 _].
      split; [done|]. unfold after_break in *. rewrite Hr in *.
      split; [done|]. split; [done|]. split; [|done].
      intros x n Hx Hn.
      assert (H0 : 0 < length (heap p)).
      { destruct (ok_root _ (inv_heap _ Hinv)) as (? & ? & _).
        by eapply lookup_lt_Some. }
      destruct (after_add_fresh
                  (mkParser (heap p) (Some 0) (Some 0) (onAdd p)) 0
                  NODE_BREAK [] eq_refl H0 x n Hx Hn) as [?|?]; done.
    - rewrite decide_False in Hflat by done.
      destruct Hflat as (Hle & Hnb & Hnl & Hflat).
      pose proof (adjust_root (level group - lastLevel) p Hinv Hc ltac:(lia))
        as Hadj.
      apply (wp_elim _ _ _ _ _ Hadj) in Heq as [Hh0 Hc0].
      destruct Hbody as (Hi1 & Hr1 & He1 & _ & _ & _ & Hfresh).
      destruct (Hfresh Hnb Hnl) as [Hf Hcurr].
      rewrite (b_root _ _ Hb), Hr, Hc0 in Hcurr.
      split; [done|]. split; [by destruct Hcurr|].
      split; [by rewrite <- Hh0|]. split; [|done].
      intros x n Hx Hn. rewrite <- Hh0 in Hx.
      destruct (Hf x n Hx Hn) as [Hp|Hp]; rewrite Hp; [done|].
      by rewrite (b_root _ _ Hb). }
  destruct Hline as (Hinv1 & Hc1 & He1 & Hf1 & Hflat1).
  eapply wp_mono; [by apply IH|]. cbv beta.
  intros _ p' (Hinv' & Hc' & He' & Hf').
  split; [done|]. split; [done|]. split; [by eapply extends_trans|].
  by eapply fresh_root_trans.
Qed.

(** ** Lines made of one list item *)

(** The end of a line whose only token, a list item marker, is consumed and
    whose item node, without children, is the current node. *)
Lemma item_line_end p c nd s lv :
  curr p = Some c → heap p !! c = Some nd →
  Kind nd = NODE_LISTITEM → Childs nd = [] →
  (run armHook ;
   run inlineLoop (S (length (tokens (advance (mkTokenGroup [tx TOKEN_LISTITEM s] lv 0)))))
         (advance (mkTokenGroup [tx TOKEN_LISTITEM s] lv 0)) ;
   run clearHook ;
   ret (level (advance (mkTokenGroup [tx TOKEN_LISTITEM s] lv 0)))) p =
  Ok (lv, mkParser (heap p) (root p) (curr p) None).
Proof.
  intros Hc Hn Hk Hch.
  erewrite bind_Ok.
  2:{ unfold armHook, lastNode.
      erewrite bind_Ok.
      2:{ erewrite bind_Ok by reflexivity. rewrite Hc.
          erewrite bind_Ok by (unfold load; simpl; by rewrite Hn).
          rewrite Hch. reflexivity. }
      unfold IsTextNode.
      erewrite bind_Ok.
      2:{ erewrite bind_Ok by (unfold load; simpl; by rewrite Hn). reflexivity. }
      rewrite Hk. reflexivity. }
  erewrite bind_Ok by reflexivity.
  erewrite bind_Ok by apply clearHook_eq.
  reflexivity.
Qed.

(** A line with one list item marker, met where the current node is
    neither a list nor a list item: a new list and its first item. *)
Lemma item_line_new i lastLevel lv s p p1 c n :
  adjustLevel (lv - lastLevel)%Z p = Ok (tt, p1) →
  curr p1 = Some c → heap p1 !! c = Some n →
  Kind n ≠ NODE_LISTITEM → Kind n ≠ NODE_LIST →
  parseLine i (mkTokenGroup [tx TOKEN_LISTITEM s] lv 0) lastLevel p =
    Ok (lv, mkParser
              (grow (grow (heap p1) c NODE_LIST "" false) (length (heap p1))
                 NODE_LISTITEM s false)
              (root p1) (Some (S (length (heap p1)))) None).
Proof.
  intros Heq Hc Hn Hli Hl. pose proof (lookup_lt_Some _ _ _ Hn) as Hlt.
  unfold parseLine. rewrite decide_False by (simpl; lia).
  erewrite bind_Ok by exact Heq.
  erewrite bind_Ok by reflexivity.
  set (h1 := grow (heap p1) c NODE_LIST "" false).
  assert (Hlen1 : length h1 = S (length (heap p1))).
  { unfold h1. rewrite grow_length. lia. }
  erewrite bind_Ok.
  2:{ unfold listItem.
      change (Are (Tokens (mkTokenGroup [tx TOKEN_LISTITEM s] lv 0))
                [TOKEN_LISTITEM]) with true.
      change (Next (mkTokenGroup [tx TOKEN_LISTITEM s] lv 0))
        with (Some (tx TOKEN_LISTITEM s),
              advance (mkTokenGroup [tx TOKEN_LISTITEM s] lv 0)).
      cbv iota beta.
      erewrite bind_Ok by reflexivity. rewrite Hc.
      erewrite bind_Ok by (unfold load; simpl; by rewrite Hn).
      erewrite bind_Ok.
      2:{ instantiate (1 := mkParser h1 (root p1) (Some (length (heap p1))) None).
          instantiate (1 := tt).
          assert (Hnew : (do l <~ addNode NODE_LIST [] ; set_curr l) p1 =
                         Ok (tt, mkParser h1 (root p1) (Some (length (heap p1))) None)).
          { erewrite bind_Ok by (by apply addNode_eq).
            unfold after_add, set_curr. simpl.
            by rewrite fires_not_text by done. }
          destruct (Kind n); try exact Hnew; done. }
      erewrite bind_Ok by reflexivity.
      erewrite bind_Ok.
      2:{ apply addNode_eq with (c := length (heap p1)); simpl; [done|lia]. }
      erewrite bind_Ok by reflexivity. reflexivity. }
  unfold after_add. simpl heap. simpl root. unfold fires. simpl onAdd.
  cbv iota. simpl argText. rewrite Hlen1.
  apply (item_line_end
           (mkParser (grow h1 (length (heap p1)) NODE_LISTITEM s false)
              (root p1) (Some (S (length (heap p1)))) None)
           (S (length (heap p1)))
           (mkNode NODE_LISTITEM s (Some (length (heap p1))) [])); try done.
  simpl. rewrite <- Hlen1. apply grow_new. lia.
Qed.

(** A line with one list item marker, met where the current node is a
    list item: one more item in the same list. *)
Lemma item_line_next i lv s p c n q :
  curr p = Some c → heap p !! c = Some n →
  Kind n = NODE_LISTITEM → Parent n = Some q → q < length (heap p) →
  parseLine i (mkTokenGroup [tx TOKEN_LISTITEM s] lv 0) lv p =
    Ok (lv, mkParser (grow (heap p) q NODE_LISTITEM s false)
              (root p) (Some (length (heap p))) None).
Proof.
  intros Hc Hn Hk Hp Hq.
  unfold parseLine. rewrite decide_False by (simpl; lia).
  erewrite bind_Ok.
  2:{ simpl level. rewrite Z.sub_diag. reflexivity. }
  erewrite bind_Ok by reflexivity.
  erewrite bind_Ok.
  2:{ unfold listItem.
      change (Are (Tokens (mkTokenGroup [tx TOKEN_LISTITEM s] lv 0))
                [TOKEN_LISTITEM]) with true.
      change (Next (mkTokenGroup [tx TOKEN_LISTITEM s] lv 0))
        with (Some (tx TOKEN_LISTITEM s),
              advance (mkTokenGroup [tx TOKEN_LISTITEM s] lv 0)).
      cbv iota beta.
      erewrite bind_Ok by reflexivity. rewrite Hc.
      erewrite bind_Ok by (unfold load; simpl; by rewrite Hn).
      rewrite Hk, Hp.
      erewrite bind_Ok by reflexivity.
      erewrite bind_Ok by reflexivity.
      erewrite bind_Ok.
      2:{ apply addNode_eq with (c := q); simpl; done. }
      erewrite bind_Ok by reflexivity. reflexivity. }
  unfold after_add. simpl heap. simpl root. simpl argText.
  rewrite (fires_not_text _ NODE_LISTITEM) by done.
  apply (item_line_end
           (mkParser (grow (heap p) q NODE_LISTITEM s false)
              (root p) (Some (length (heap p))) None)
           (length (heap p))
           (mkNode NODE_LISTITEM s (Some q) [])); try done.
  simpl. by apply grow_new.
Qed.


Lemma splitLoop_line fuel (ind body : list Token) e rest groups :
  allIndent ind → pastIndents (body ++ e :: rest) → noEOL body →
  Is e TOKEN_EOL = true →
  splitLoop (S fuel) (ind ++ body ++ e :: rest) groups =
    splitLoop fuel rest
      (groups ++ [mkTokenGroup body (Z.of_nat (length ind)) 0]).
Proof.
  intros Hi Hp Hb He.
  rewrite splitLoop_S by (by destruct ind, body).
  rewrite NewTokenGroup_app by done.
  unfold sliceFrom. rewrite decide_True by (rewrite !length_app; simpl; lia).
  rewrite app_assoc.
  replace (length ind + length body + 1)
    with (length (ind ++ body) + 1) by (rewrite length_app; lia).
  by rewrite drop_app_add.
Qed.

Lemma adjust_open_eq n p :
  adjustLevel (Z.of_nat n - 0) p = times n openGroup p.
Proof.
  unfold adjustLevel. destruct n as [|n].
  - done.
  - rewrite decide_True by lia. f_equal. lia.
Qed.

(** Two lines of one list item each, at the same level, met where the
    current node is not a list item. *)
Lemma two_items_eq i lastLevel lv a b p p1 c n :
  inv p → adjustLevel (lv - lastLevel)%Z p = Ok (tt, p1) →
  curr p1 = Some c → heap p1 !! c = Some n → Kind n ≠ NODE_LISTITEM →
  groupsLoop i [mkTokenGroup [tx TOKEN_LISTITEM a] lv 0;
                mkTokenGroup [tx TOKEN_LISTITEM b] lv 0] lastLevel p =
    Ok (lv, mkParser
              (grow (grow (grow (heap p1) c NODE_LIST "" false)
                       (length (heap p1)) NODE_LISTITEM a false)
                 (length (heap p1)) NODE_LISTITEM b false)
              (root p1) (Some (S (S (length (heap p1))))) None).
Proof.
  intros Hinv Heq Hc Hn Hli.
  assert (Hl : Kind n ≠ NODE_LIST).
  { pose proof (adjustLevel_spec (lv - lastLevel) p Hinv) as Hadj.
    apply (wp_elim _ _ _ _ _ Hadj) in Heq as [Hinv1 _ _ _].
    destruct (inv_curr_some _ Hinv1) as (c' & n' & Hc' & Hn' & Hk).
    congruence. }
  pose proof (lookup_lt_Some _ _ _ Hn) as Hlt.
  simpl. erewrite bind_Ok by (by eapply item_line_new).
  set (h1 := grow (heap p1) c NODE_LIST "" false).
  assert (Hlen1 : length h1 = S (length (heap p1))).
  { unfold h1. rewrite grow_length. lia. }
  set (h2 := grow h1 (length (heap p1)) NODE_LISTITEM a false).
  assert (Hlen2 : length h2 = S (S (length (heap p1)))).
  { unfold h2. rewrite grow_length. lia. }
  erewrite bind_Ok.
  2:{ apply (item_line_next (S i) lv b _ (S (length (heap p1)))
               (mkNode NODE_LISTITEM a (Some (length (heap p1))) [])
               (length (heap p1))); simpl; try done.
      - fold h1. rewrite <- Hlen1. apply grow_new. lia.
      - fold h1 h2. lia. }
  simpl. fold h1 h2. by rewrite Hlen2.
Qed.

Lemma two_items_heap (h : list Node) c n a b :
  h !! c = Some n →
  let L := length h in
  let H := grow (grow (grow h c NODE_LIST "" false) L NODE_LISTITEM a false)
             L NODE_LISTITEM b false in
  length H = L + 3 ∧
  H !! L = Some (mkNode NODE_LIST "" (Some c) [L + 1; L + 2]) ∧
  H !! (L + 1) = Some (mkNode NODE_LISTITEM a (Some L) []) ∧
  H !! (L + 2) = Some (mkNode NODE_LISTITEM b (Some L) []) ∧
  H !! c = Some (push_Child L n) ∧
  ∀ l m, l ≠ c → h !! l = Some m → H !! l = Some m.
Proof.
  intros Hn L H. pose proof (lookup_lt_Some _ _ _ Hn) as Hlt.
  set (h1 := grow h c NODE_LIST "" false).
  assert (Hlen1 : length h1 = S L) by (unfold h1; rewrite grow_length; lia).
  assert (HL1 : h1 !! L = Some (mkNode NODE_LIST "" (Some c) [])).
  { by apply grow_new. }
  set (h2 := grow h1 L NODE_LISTITEM a false).
  assert (Hlen2 : length h2 = S (S L)) by (unfold h2; rewrite grow_length; lia).
  assert (HL2 : h2 !! L = Some (mkNode NODE_LIST "" (Some c) [S L])).
  { unfold h2. rewrite (grow_old _ _ _ _ _ _ _ HL1). rewrite decide_True by done.
    unfold push_Childs, added. simpl. by rewrite Hlen1. }
  assert (HA2 : h2 !! S L = Some (mkNode NODE_LISTITEM a (Some L) [])).
  { unfold h2. rewrite <- Hlen1. apply grow_new. lia. }
  split; [unfold H; fold h1 h2; rewrite grow_length; lia|].
  split.
  { unfold H. fold h1 h2. rewrite (grow_old _ _ _ _ _ _ _ HL2).
    rewrite decide_True by done. unfold push_Childs, added. simpl.
    rewrite Hlen2. do 4 f_equal; [lia|]. f_equal. lia. }
  split.
  { unfold H. fold h1 h2. replace (L + 1) with (S L) by lia.
    rewrite (grow_old _ _ _ _ _ _ _ HA2). by rewrite decide_False by lia. }
  split.
  { unfold H. fold h1 h2. replace (L + 2) with (length h2) by lia.
    apply grow_new. lia. }
  assert (Hold : ∀ l m, h !! l = Some m → l < L ∧
            H !! l = Some (if decide (l = c) then push_Child L m else m)).
  { intros l m Hm. pose proof (lookup_lt_Some _ _ _ Hm) as Hl.
    split; [done|]. unfold H. fold h1 h2.
    assert (H1 : h1 !! l = Some (if decide (l = c) then push_Child L m else m)).
    { unfold h1. rewrite (grow_old _ _ _ _ _ _ _ Hm). by case_decide. }
    assert (H2 : h2 !! l = Some (if decide (l = c) then push_Child L m else m)).
    { unfold h2. rewrite (grow_old _ _ _ _ _ _ _ H1).
      by rewrite (decide_False (P := l = L)) by lia. }
    rewrite (grow_old _ _ _ _ _ _ _ H2).
    by rewrite (decide_False (P := l = L)) by lia. }
  split.
  - destruct (Hold c n Hn) as [_ ->]. by rewrite decide_True.
  - intros l m Hne Hm. destruct (Hold l m Hm) as [_ ->].
    by rewrite decide_False.
Qed.

(** * The claims *)

(** ** Line grouping *)

(** C2, as the claim states it, fails: on [Indent, Text, EndOfLine] the
    group has one indent and one body token, and the count returned is 2,
    not 1 + 1 + 1. *)
Lemma NewTokenGroup_consumed_counterexample :
  let '(group, consumed) :=
    NewTokenGroup [tk TOKEN_INDENT; tx TOKEN_TEXT "a"; tk TOKEN_EOL] in
  level group = 1%Z ∧ tokens group = [tx TOKEN_TEXT "a"] ∧
  consumed = 2 ∧ consumed ≠ 1 + 1 + 1.
Proof. vm_compute. repeat split. discriminate. Qed.

(** C2, amended: for every input made of leading indents, a body without
    [TOKEN_EOL] and a rest that is empty or starts with the [TOKEN_EOL],
    [NewTokenGroup] returns the body with the number of indents as level,
    and a count equal to the number of leading indents plus the number of
    body tokens; the terminating [TOKEN_EOL] is not counted. *)
Theorem NewTokenGroup_consumed (ind body rest : list Token) :
  allIndent ind → pastIndents (body ++ rest) → noEOL body → atLineEnd rest →
  let '(group, consumed) := NewTokenGroup (ind ++ body ++ rest) in
  tokens group = body ∧ level group = Z.of_nat (length ind) ∧ pos group = 0 ∧
  consumed = length ind + length body.
Proof.
  intros Hi Hp Hb Hr. by rewrite NewTokenGroup_app.
Qed.

Lemma NewTokenGroup_consumed_witness :
  let '(group, consumed) :=
    NewTokenGroup ([tk TOKEN_INDENT; tk TOKEN_INDENT] ++
                   [tx TOKEN_TEXT "a"; tk TOKEN_STAR] ++
                   [tk TOKEN_EOL; tx TOKEN_TEXT "b"]) in
  tokens group = [tx TOKEN_TEXT "a"; tk TOKEN_STAR] ∧
  level group = Z.of_nat 2 ∧ pos group = 0 ∧ consumed = 2 + 2.
Proof.
  apply (NewTokenGroup_consumed [tk TOKEN_INDENT; tk TOKEN_INDENT]
           [tx TOKEN_TEXT "a"; tk TOKEN_STAR]
           [tk TOKEN_EOL; tx TOKEN_TEXT "b"]).
  - repeat constructor.
  - reflexivity.
  - repeat constructor.
  - reflexivity.
Defined.

(** ** Termination of the input *)

(** C10: [Parse] skips the [TOKEN_EOL] of every line with
    [tokens[consumed+1:]].  When every line of the input ends with a
    [TOKEN_EOL] no slice expression is out of range and [Parse] returns
    its root; when the input is not empty and its last line has no
    [TOKEN_EOL], the slice expression panics. *)
Theorem Parse_needs_EOL (tokens : list Token) :
  (terminated tokens → ∃ p, Parse tokens NewParser = Ok (Some 0, p)) ∧
  (tokens ≠ [] → ¬ terminated tokens →
   Parse tokens NewParser = Panic SliceBounds).
Proof. split; [apply Parse_total|apply Parse_panic]. Qed.

Lemma Parse_needs_EOL_witness :
  (∃ p, Parse [tk TOKEN_INDENT; tx TOKEN_TEXT "a"; tk TOKEN_EOL;
               tx TOKEN_LISTITEM "b"; tk TOKEN_EOL] NewParser =
        Ok (Some 0, p)) ∧
  Parse [tk TOKEN_INDENT; tx TOKEN_TEXT "a"; tk TOKEN_EOL;
         tx TOKEN_LISTITEM "b"] NewParser = Panic SliceBounds.
Proof.
  split.
  - apply (proj1 (Parse_needs_EOL _)). reflexivity.
  - apply (proj2 (Parse_needs_EOL _)); [discriminate|]. vm_compute. discriminate.
Defined.

(** ** The root *)

Lemma heap_ok_ancestor h : heap_ok h → ∀ l, l < length h → ancestor h 0 l.
Proof.
  intros Hok l. induction l as [l IH] using lt_wf_ind. intros Hl.
  destruct (decide (l = 0)) as [->|Hl0]; [constructor|].
  destruct (lookup_lt_is_Some_2 _ _ Hl) as [n Hn].
  destruct (ok_parent _ Hok l n Hn Hl0) as (q & m & Hp & Hq & Hm & _).
  eapply ancestor_step; [done|done|]. apply IH; [done|lia].
Qed.

Lemma inv_rooted p : inv p → rooted p.
Proof.
  intros [Hok Hr _]. split; [done|]. split; [apply Hok|].
  by apply heap_ok_ancestor.
Qed.

(** C8: [closeGroup] with [curr] at the root, a node without parent,
    changes nothing; and in the parser [Parse] returns, as after every
    line on the way, the root has no parent and is an ancestor of every
    node. *)
Theorem root_stays_root :
  (∀ p r n, root p = Some r → curr p = Some r → heap p !! r = Some n →
            Parent n = None → closeGroup p = Ok (tt, p)) ∧
  (∀ groups l p, groupsLoop 0 groups 0%Z init = Ok (l, p) → rooted p) ∧
  (∀ tokens r p, Parse tokens NewParser = Ok (r, p) → r = root p ∧ rooted p).
Proof.
  split; [|split].
  - intros [h r0 c o] r n. simpl. intros -> -> Hn Hp. unfold closeGroup.
    erewrite bind_Ok by reflexivity. simpl.
    erewrite bind_Ok.
    2:{ erewrite bind_Ok by reflexivity. simpl.
        erewrite bind_Ok by (unfold load; simpl; by rewrite Hn).
        by rewrite Hp. }
    erewrite bind_Ok by reflexivity. simpl.
    erewrite bind_Ok by (unfold load; simpl; by rewrite Hn).
    by rewrite Hp.
  - intros groups l p Heq.
    pose proof (groupsLoop_spec groups 0 0%Z init inv_init) as Hwp.
    apply (wp_elim _ _ _ _ _ Hwp) in Heq as [Hinv _]. by apply inv_rooted.
  - intros tokens r p Heq. apply Parse_inv in Heq as [Hinv ->].
    split; [by rewrite (inv_root _ Hinv)|by apply inv_rooted].
Qed.

Lemma root_stays_root_witness :
  closeGroup init = Ok (tt, init) ∧
  rooted (mkParser
            [mkNode NODE_GROUP "" None [1];
             mkNode NODE_GROUP "" (Some 0) [2];
             mkNode NODE_TEXT "a" (Some 1) []]
            (Some 0) (Some 1) None).
Proof.
  split.
  - apply (proj1 root_stays_root init 0 (mkNode NODE_GROUP "" None []));
      reflexivity.
  - apply (proj1 (proj2 root_stays_root)
             [mkTokenGroup [tx TOKEN_TEXT "a"] 1%Z 0] 1%Z).
    vm_compute. reflexivity.
Defined.

(** ** Lists *)

(** C9: in the heap of every tree [Parse] returns, every child of a list
    node is a list item. *)
Theorem list_childs_are_items (tokens : list Token) r p :
  Parse tokens NewParser = Ok (r, p) →
  ∀ l n c, heap p !! l = Some n → Kind n = NODE_LIST → c ∈ Childs n →
    ∃ m, heap p !! c = Some m ∧ Kind m = NODE_LISTITEM.
Proof.
  intros Heq l n c Hn Hk Hc. apply Parse_inv in Heq as [[Hok _ _] _].
  destruct (ok_childs _ Hok l n c Hn Hc) as (m & Hm & Hp).
  exists m. split; [done|].
  assert (Hc0 : c ≠ 0) by (by eapply ok_root_parent).
  destruct (ok_parent _ Hok c m Hm Hc0) as (q & mq & Hq & _ & Hmq & _ & Hiff).
  assert (q = l) as -> by congruence.
  assert (mq = n) as -> by congruence. by apply Hiff.
Qed.

Lemma list_childs_are_items_witness :
  ∃ m,
    heap (mkParser
            [mkNode NODE_GROUP "" None [1];
             mkNode NODE_LIST "" (Some 0) [2; 3];
             mkNode NODE_LISTITEM "a" (Some 1) [];
             mkNode NODE_LISTITEM "b" (Some 1) [4];
             mkNode NODE_GROUP "" (Some 3) [5];
             mkNode NODE_TEXT "c" (Some 4) []]
            (Some 0) (Some 4) None) !! 3 = Some m ∧
    Kind m = NODE_LISTITEM.
Proof.
  apply (list_childs_are_items
           [tx TOKEN_LISTITEM "a"; tk TOKEN_EOL;
            tx TOKEN_LISTITEM "b"; tk TOKEN_EOL;
            tk TOKEN_INDENT; tx TOKEN_TEXT "c"; tk TOKEN_EOL] (Some 0)
           (mkParser
              [mkNode NODE_GROUP "" None [1];
               mkNode NODE_LIST "" (Some 0) [2; 3];
               mkNode NODE_LISTITEM "a" (Some 1) [];
               mkNode NODE_LISTITEM "b" (Some 1) [4];
               mkNode NODE_GROUP "" (Some 3) [5];
               mkNode NODE_TEXT "c" (Some 4) []]
              (Some 0) (Some 4) None)
           ltac:(vm_compute; reflexivity)
           1 (mkNode NODE_LIST "" (Some 0) [2; 3]) 3).
  - reflexivity.
  - reflexivity.
  - simpl. apply list_elem_of_further, list_elem_of_here.
Defined.

(** ** Bold and underline pairs *)

(** C5: a line [Bold, Text(w), Bold] yields exactly one [TextBold(w)]
    node below the root and nothing else; the unmatched [Bold, Text(w)]
    yields the [Text(w)] node only, without a panic; the underline
    delimiter behaves the same way with [TextUnderline].  The line is
    given to [Parse] with its terminating [TOKEN_EOL], and to the body of
    the loop over the groups as the group itself. *)
Theorem bold_pairing (w : string) :
  ParseTree [tk TOKEN_STAR; tx TOKEN_TEXT w; tk TOKEN_STAR; tk TOKEN_EOL] =
    Ok (T NODE_GROUP "" [T NODE_TEXTBOLD w []]) ∧
  ParseTree [tk TOKEN_STAR; tx TOKEN_TEXT w; tk TOKEN_EOL] =
    Ok (T NODE_GROUP "" [T NODE_TEXT w []]) ∧
  ParseTree [tk TOKEN_UNDERLINE; tx TOKEN_TEXT w; tk TOKEN_UNDERLINE;
             tk TOKEN_EOL] =
    Ok (T NODE_GROUP "" [T NODE_TEXTUNDERLINE w []]) ∧
  ParseTree [tk TOKEN_UNDERLINE; tx TOKEN_TEXT w; tk TOKEN_EOL] =
    Ok (T NODE_GROUP "" [T NODE_TEXT w []]) ∧
  parseLine 0
    (mkTokenGroup [tk TOKEN_STAR; tx TOKEN_TEXT w; tk TOKEN_STAR] 0%Z 0)
    0%Z init =
    Ok (0%Z, mkParser [mkNode NODE_GROUP "" None [1];
                       mkNode NODE_TEXTBOLD w (Some 0) []]
               (Some 0) (Some 0) None) ∧
  parseLine 0 (mkTokenGroup [tk TOKEN_STAR; tx TOKEN_TEXT w] 0%Z 0) 0%Z init =
    Ok (0%Z, mkParser [mkNode NODE_GROUP "" None [1];
                       mkNode NODE_TEXT w (Some 0) []]
               (Some 0) (Some 0) None).
Proof. repeat (split; [vm_compute; reflexivity|]). vm_compute. reflexivity. Qed.

(** ** The space hook *)

(** C1, as the claim states it, fails: no space node separates the two
    text nodes of [Bold, Text(a), Bold, Text(b), EndOfLine]. *)
Lemma space_within_line_counterexample :
  ParseTree [tk TOKEN_STAR; tx TOKEN_TEXT "a"; tk TOKEN_STAR;
             tx TOKEN_TEXT "b"; tk TOKEN_EOL] ≠
    Ok (T NODE_GROUP ""
          [T NODE_TEXTBOLD "a" []; T NODE_SPACE "" []; T NODE_TEXT "b" []]).
Proof. vm_compute. discriminate. Qed.

(** C1, amended: for [Bold, Text(a), Bold, Text(b), EndOfLine] the
    children of the root are [TextBold(a)], [Text(b)] with no space
    between them: the hook is armed once per line, before its inline
    tokens, and only when the node added last is a text node, as after the
    text of the line before.  An armed hook puts exactly one space node
    right before the next text node added and is cleared by that; a line
    adds one space node at most, however many text nodes follow. *)
Theorem space_between_lines :
  (∀ a b,
     ParseTree [tk TOKEN_STAR; tx TOKEN_TEXT a; tk TOKEN_STAR;
                tx TOKEN_TEXT b; tk TOKEN_EOL] =
       Ok (T NODE_GROUP "" [T NODE_TEXTBOLD a []; T NODE_TEXT b []])) ∧
  (∀ a b c,
     ParseTree [tx TOKEN_TEXT a; tk TOKEN_EOL;
                tk TOKEN_STAR; tx TOKEN_TEXT b; tk TOKEN_STAR;
                tx TOKEN_TEXT c; tk TOKEN_EOL] =
       Ok (T NODE_GROUP ""
             [T NODE_TEXT a []; T NODE_SPACE "" [];
              T NODE_TEXTBOLD b []; T NODE_TEXT c []])) ∧
  (∀ p c n kind text,
     curr p = Some c → heap p !! c = Some n →
     onAdd p = Some SpaceBeforeText → isTextKind kind = true →
     ∃ p', addNode kind text p = Ok (Some (length (heap p)), p') ∧
       onAdd p' = None ∧ curr p' = curr p ∧
       length (heap p') = length (heap p) + 2 ∧
       heap p' !! c =
         Some (mkNode (Kind n) (Text n) (Parent n)
                 (Childs n ++ [S (length (heap p)); length (heap p)])) ∧
       heap p' !! S (length (heap p)) =
         Some (mkNode NODE_SPACE "" (Some c) []) ∧
       heap p' !! length (heap p) =
         Some (mkNode kind (argText text) (Some c) [])) ∧
  (∀ i group lastLevel p,
     inv p → onAdd p = None →
     ∃ l' p', parseLine i group lastLevel p = Ok (l', p') ∧
       onAdd p' = None ∧ spaces (heap p') ≤ spaces (heap p) + 1).
Proof.
  split; [intros; vm_compute; reflexivity|].
  split; [intros; vm_compute; reflexivity|]. split.
  - intros p c n kind text Hc Hn Hhook Htext.
    pose proof (lookup_lt_Some _ _ _ Hn) as Hlt.
    eexists. split; [by apply addNode_eq|].
    unfold after_add, fires. rewrite Hhook, Htext. simpl.
    split; [done|]. split; [done|]. split; [by rewrite grow_length|].
    split; [|split; [by apply grow_space|by apply grow_new]].
    rewrite (grow_old _ _ _ _ _ _ _ Hn). by rewrite decide_True.
  - intros i group lastLevel p Hinv Hhook.
    destruct (proj1 (wp_ok _ _ _) (parseLine_spec i group lastLevel p Hinv))
      as (l' & p' & Heq & Hstep).
    exists l', p'. split; [done|].
    destruct (lineStep_lined _ _ _ _ _ _ Hinv Hstep) as (_ & _ & _ & Hh & Hs).
    split; [done|]. unfold potential, armed in Hs. rewrite Hhook in Hs. lia.
Qed.

Lemma space_between_lines_witness :
  (∃ p',
     addNode NODE_TEXT ["b"]
       (mkParser [mkNode NODE_GROUP "" None [1];
                  mkNode NODE_TEXT "a" (Some 0) []]
          (Some 0) (Some 0) (Some SpaceBeforeText)) = Ok (Some 2, p') ∧
     onAdd p' = None ∧ curr p' = Some 0 ∧ length (heap p') = 4 ∧
     heap p' !! 0 = Some (mkNode NODE_GROUP "" None [1; 3; 2]) ∧
     heap p' !! 3 = Some (mkNode NODE_SPACE "" (Some 0) []) ∧
     heap p' !! 2 = Some (mkNode NODE_TEXT "b" (Some 0) [])) ∧
  (∃ l' p',
     parseLine 1
       (mkTokenGroup [tx TOKEN_TEXT "b"; tx TOKEN_TEXT "c"] 0%Z 0) 0%Z
       (mkParser [mkNode NODE_GROUP "" None [1];
                  mkNode NODE_TEXT "a" (Some 0) []]
          (Some 0) (Some 0) None) = Ok (l', p') ∧
     onAdd p' = None ∧
     spaces (heap p') ≤
       spaces [mkNode NODE_GROUP "" None [1];
               mkNode NODE_TEXT "a" (Some 0) []] + 1).
Proof.
  split.
  - apply (proj1 (proj2 (proj2 space_between_lines))
             (mkParser [mkNode NODE_GROUP "" None [1];
                        mkNode NODE_TEXT "a" (Some 0) []]
                (Some 0) (Some 0) (Some SpaceBeforeText))
             0 (mkNode NODE_GROUP "" None [1]) NODE_TEXT ["b"]);
      reflexivity.
  - apply (proj2 (proj2 (proj2 space_between_lines)) 1
             (mkTokenGroup [tx TOKEN_TEXT "b"; tx TOKEN_TEXT "c"] 0%Z 0) 0%Z
             (mkParser [mkNode NODE_GROUP "" None [1];
                        mkNode NODE_TEXT "a" (Some 0) []]
                (Some 0) (Some 0) None)); [|reflexivity].
    refine (proj1 (Parse_inv [tx TOKEN_TEXT "a"; tk TOKEN_EOL] (Some 0)
                     (mkParser [mkNode NODE_GROUP "" None [1];
                                mkNode NODE_TEXT "a" (Some 0) []]
                        (Some 0) (Some 0) None) _)).
    vm_compute. reflexivity.
Defined.

(** ** Empty lines *)

(** C6: a group without tokens that is not the first one makes the root
    the current node, appends a break node as the last child of the root,
    whatever node was current before, and nothing else: no group is
    opened or closed for its level and [lastLevel] stays as it was.  So
    two lines with an empty line between them give, below the root, the
    content of the first line, the break and the content of the second
    line, also when the first line is nested. *)
Theorem empty_line_breaks :
  (∀ i group lastLevel p r n,
     root p = Some r → heap p !! r = Some n →
     tokens group = [] → 0 < i →
     ∃ p', parseLine i group lastLevel p = Ok (lastLevel, p') ∧
       root p' = Some r ∧ curr p' = Some r ∧ onAdd p' = None ∧
       length (heap p') = S (length (heap p)) ∧
       heap p' !! length (heap p) =
         Some (mkNode NODE_BREAK "" (Some r) []) ∧
       heap p' !! r = Some (push_Child (length (heap p)) n) ∧
       ∀ l, l ≠ r → l < length (heap p) → heap p' !! l = heap p !! l) ∧
  (∀ a b,
     ParseTree [tk TOKEN_INDENT; tx TOKEN_TEXT a; tk TOKEN_EOL;
                tk TOKEN_EOL;
                tx TOKEN_TEXT b; tk TOKEN_EOL] =
       Ok (T NODE_GROUP ""
             [T NODE_GROUP "" [T NODE_TEXT a []];
              T NODE_BREAK "" [];
              T NODE_TEXT b []])).
Proof.
  split; [|intros; vm_compute; reflexivity].
  intros i group lastLevel p r n Hr Hn Hemp Hi.
  pose proof (lookup_lt_Some _ _ _ Hn) as Hlt.
  unfold parseLine. rewrite decide_True by (by rewrite Hemp).
  erewrite bind_Ok by reflexivity.
  erewrite bind_Ok by (apply addNode_eq with (c := r); simpl; done).
  eexists. split; [reflexivity|].
  unfold after_add. simpl. rewrite (fires_not_text _ NODE_BREAK) by done.
  split; [done|]. split; [done|]. split; [done|].
  split; [rewrite grow_length; lia|]. split; [by apply grow_new|].
  split.
  - rewrite (grow_old _ _ _ _ _ _ _ Hn). by rewrite decide_True.
  - intros l Hl Hlen. destruct (lookup_lt_is_Some_2 _ _ Hlen) as [m Hm].
    rewrite (grow_old _ _ _ _ _ _ _ Hm). by rewrite decide_False.
Qed.

Lemma empty_line_breaks_witness :
  ∃ p',
    parseLine 1 (mkTokenGroup [] 3%Z 0) 1%Z
      (mkParser [mkNode NODE_GROUP "" None [1];
                 mkNode NODE_GROUP "" (Some 0) [2];
                 mkNode NODE_TEXT "a" (Some 1) []]
         (Some 0) (Some 1) None) = Ok (1%Z, p') ∧
    root p' = Some 0 ∧ curr p' = Some 0 ∧ onAdd p' = None ∧
    length (heap p') = 4 ∧
    heap p' !! 3 = Some (mkNode NODE_BREAK "" (Some 0) []) ∧
    heap p' !! 0 = Some (mkNode NODE_GROUP "" None [1; 3]) ∧
    ∀ l, l ≠ 0 → l < 3 →
      heap p' !! l =
        [mkNode NODE_GROUP "" None [1];
         mkNode NODE_GROUP "" (Some 0) [2];
         mkNode NODE_TEXT "a" (Some 1) []] !! l.
Proof.
  apply (proj1 empty_line_breaks 1 (mkTokenGroup [] 3%Z 0) 1%Z
           (mkParser [mkNode NODE_GROUP "" None [1];
                      mkNode NODE_GROUP "" (Some 0) [2];
                      mkNode NODE_TEXT "a" (Some 1) []]
              (Some 0) (Some 1) None)
           0 (mkNode NODE_GROUP "" None [1])); try reflexivity.
  lia.
Defined.

(** ** Indentation *)

(** C3: let a line raise the level by [k > 0] above [lastLevel], followed
    by any lines that stay above [lastLevel]; all of them have tokens and
    no section token (which would reset [curr] to the root).  Then the
    level change of the first line opens exactly [k] group nodes, the
    first a child of the node [c] that was current and each next one a
    child of the one before; and when the level returns to [lastLevel],
    the closing steps leave [curr] at [c] again, the heap being
    untouched. *)
Theorem indentation_round_trip i first rest lastLevel k p c :
  inv p → curr p = Some c → 0 < k →
  level first = (lastLevel + Z.of_nat k)%Z →
  Forall (nestedLine lastLevel) (first :: rest) →
  ∃ p1 l' p',
    adjustLevel (level first - lastLevel) p = Ok (tt, p1) ∧
    length (heap p1) = length (heap p) + k ∧
    (∀ j, j < k → ∃ nd,
       heap p1 !! (length (heap p) + j) = Some nd ∧
       Kind nd = NODE_GROUP ∧
       Parent nd = Some (groupParent c (length (heap p)) j)) ∧
    curr p1 = Some (length (heap p) + k - 1) ∧
    groupsLoop i (first :: rest) lastLevel p = Ok (l', p') ∧
    (∀ group, last (first :: rest) = Some group → l' = level group) ∧
    ∃ p'', adjustLevel (lastLevel - l') p' = Ok (tt, p'') ∧
           curr p'' = Some c ∧ heap p'' = heap p'.
Proof.
  intros Hinv Hc Hk Hlev Hall.
  apply Forall_cons in Hall as [Hfirst Hrest].
  pose proof Hfirst as (Hne & Hns & _).
  (* the level change of the first line *)
  assert (Hopen : adjustLevel (level first - lastLevel) =
                  times k openGroup).
  { unfold adjustLevel. rewrite decide_True by lia. f_equal. lia. }
  destruct (proj1 (wp_ok _ _ _) (times_open k p c Hinv Hc))
    as ([] & p1 & Heq1 & Hb1 & Hlen1 & Hcurr1 & Hnodes1).
  assert (Hcurr1' : curr p1 = Some (length (heap p) + k - 1)).
  { rewrite Hcurr1. destruct k; [lia|]. simpl. f_equal. lia. }
  assert (Hcl1 : climbs (heap p1) (length (heap p) + k - 1) k (length (heap p))).
  { replace (length (heap p) + k - 1) with (length (heap p) + (k - 1)) by lia.
    replace k with (0 + S (k - 1)) at 2 by lia.
    eapply (chain_climbs _ _ c k c); [|by right|lia].
    intros j Hj. destruct (Hnodes1 j Hj) as (nd & ? & ? & _ & ?). eauto. }
  destruct (Hnodes1 0 Hk) as (g1 & Hg1 & Hg1k & _ & Hg1p).
  rewrite Nat.add_0_r in Hg1. simpl in Hg1p.
  (* the first line *)
  destruct (proj1 (wp_ok _ _ _) (parseLine_spec i first lastLevel p Hinv))
    as (l2 & p2 & Heq2 & Hstep).
  destruct Hstep as [(Hemp & _)|(_ & -> & p1' & Heq1' & _ & Hbody)].
  { destruct (tokens first); [done|simpl in Hemp; lia]. }
  rewrite Hopen, Heq1 in Heq1'. injection Heq1' as <-.
  destruct Hbody as (Hinv2 & _ & He2 & _ & _ & Hkeep & _).
  destruct (climbs_keeps p1 p2 _ _ _ (Hkeep (noSection_Tokens _ Hns)) He2
              Hcurr1' Hcl1) as (x2 & Hx2 & Hcl2).
  (* the lines that follow *)
  assert (Hcl2' : climbs (heap p2) x2 (Z.to_nat (level first - lastLevel))
                    (length (heap p))).
  { by replace (Z.to_nat (level first - lastLevel)) with k by lia. }
  destruct (proj1 (wp_ok _ _ _)
              (nested_lines rest (S i) (level first) lastLevel p2 x2 _
                 Hinv2 Hx2 ltac:(lia) Hcl2' Hrest))
    as (l' & p' & Heq' & Hbase & Hinv' & He' & Hlast & Hnil & x' & Hx' & Hcl').
  exists p1, l', p'. rewrite Hopen.
  split; [done|]. split; [done|]. split.
  { intros j Hj. destruct (Hnodes1 j Hj) as (nd & ? & ? & _ & ?). eauto. }
  split; [done|]. split.
  { simpl. erewrite bind_Ok by exact Heq2. done. }
  split.
  { intros group Hg. destruct rest as [|g2 rest].
    - simpl in Hg. injection Hg as <-. by apply Hnil.
    - apply Hlast. by rewrite last_cons_cons in Hg. }
  (* the way back *)
  assert (Hclose : adjustLevel (lastLevel - l') =
                   times (Z.to_nat (l' - lastLevel)) closeGroup).
  { unfold adjustLevel. rewrite decide_False by lia.
    rewrite decide_True by lia. f_equal. lia. }
  destruct (proj1 (wp_ok _ _ _)
              (times_close (Z.to_nat (l' - lastLevel)) p' Hinv'))
    as ([] & p'' & Heq'' & _ & Hheap & _ & _ & _ & Hclimb).
  exists p''. rewrite Hclose. split; [done|]. split; [|done].
  destruct (Hclimb x' _ _ Hx' Hcl') as [_ Htarget].
  rewrite Htarget by done. f_equal.
  destruct (ext_old _ _ (extends_trans _ _ _ He2 He') _ _ Hg1)
    as (g1' & Hg1' & _ & _ & Hp' & _).
  eapply closeTarget_parent; [done|]. by rewrite Hp'.
Qed.

Lemma indentation_round_trip_witness :
  ∃ p1 l' p',
    adjustLevel (2 - 0) init = Ok (tt, p1) ∧
    length (heap p1) = 1 + 2 ∧
    (∀ j, j < 2 → ∃ nd,
       heap p1 !! (1 + j) = Some nd ∧ Kind nd = NODE_GROUP ∧
       Parent nd = Some (groupParent 0 1 j)) ∧
    curr p1 = Some (1 + 2 - 1) ∧
    groupsLoop 0
      [mkTokenGroup [tx TOKEN_LISTITEM "x"] 2%Z 0;
       mkTokenGroup [tx TOKEN_TEXT "y"] 3%Z 0;
       mkTokenGroup [tx TOKEN_BLOCKITEM "z"] 1%Z 0] 0%Z init = Ok (l', p') ∧
    (∀ group,
       last [mkTokenGroup [tx TOKEN_LISTITEM "x"] 2%Z 0;
             mkTokenGroup [tx TOKEN_TEXT "y"] 3%Z 0;
             mkTokenGroup [tx TOKEN_BLOCKITEM "z"] 1%Z 0] = Some group →
       l' = level group) ∧
    ∃ p'', adjustLevel (0 - l') p' = Ok (tt, p'') ∧
           curr p'' = Some 0 ∧ heap p'' = heap p'.
Proof.
  apply (indentation_round_trip 0
           (mkTokenGroup [tx TOKEN_LISTITEM "x"] 2%Z 0)
           [mkTokenGroup [tx TOKEN_TEXT "y"] 3%Z 0;
            mkTokenGroup [tx TOKEN_BLOCKITEM "z"] 1%Z 0]
           0%Z 2 init 0).
  - apply inv_init.
  - reflexivity.
  - lia.
  - reflexivity.
  - repeat constructor; discriminate.
Defined.

(** ** Sections *)

(** C7, as the claim states it, fails: after the section line of
    [Section, EndOfLine, ListItem, EndOfLine], and with no increase of the
    indentation, the list item node is a child of the list node, not of
    the root. *)
Lemma section_then_list_counterexample :
  ∃ p,
    Parse [tx TOKEN_SECTION "s"; tk TOKEN_EOL;
           tx TOKEN_LISTITEM "x"; tk TOKEN_EOL] NewParser = Ok (Some 0, p) ∧
    heap p !! 1 = Some (mkNode NODE_SECTION "s" (Some 0) []) ∧
    heap p !! 3 = Some (mkNode NODE_LISTITEM "x" (Some 2) []) ∧
    ¬ (∀ l n, 1 < l → heap p !! l = Some n → Parent n = root p).
Proof.
  exists (mkParser
            [mkNode NODE_GROUP "" None [1; 2];
             mkNode NODE_SECTION "s" (Some 0) [];
             mkNode NODE_LIST "" (Some 0) [3];
             mkNode NODE_LISTITEM "x" (Some 2) []]
            (Some 0) (Some 3) None).
  split; [vm_compute; reflexivity|]. split; [done|]. split; [done|].
  intros H. specialize (H 3 _ ltac:(lia) eq_refl). discriminate.
Qed.

(** C7, amended: whenever the loop over the tokens of a line meets a
    section token, at any nesting depth, the root becomes the current
    node and a section node with the text of the token is appended as a
    child of the root; every node added for the rest of that line is a
    child of the root, and so is every node of the lines that follow, up
    to the first line that increases the indentation or starts with a
    block or list marker (these open a node of their own below the
    root). *)
Theorem section_resets_to_root p fuel group token group' :
  inv p → Next group = (Some token, group') →
  Token_Kind token = TOKEN_SECTION → length (Tokens group) < fuel →
  ∃ p1, inlineLoop fuel group p = Ok (tt, p1) ∧
    curr p1 = root p ∧ root p1 = root p ∧
    (∃ nd, heap p1 !! length (heap p) = Some nd ∧
           Kind nd = NODE_SECTION ∧ Text nd = Token_Text token ∧
           Parent nd = root p) ∧
    (∀ l n, length (heap p) ≤ l → heap p1 !! l = Some n →
            Parent n = root p) ∧
    ∀ i lines, flatLines i (level group) lines →
      ∃ l2 p2,
        (run clearHook ; groupsLoop i lines (level group)) p1 = Ok (l2, p2) ∧
        curr p2 = root p ∧
        ∀ l n, length (heap p) ≤ l → heap p2 !! l = Some n →
               Parent n = root p.
Proof.
  intros Hinv Hnext Hkind Hfuel. pose proof (inv_root _ Hinv) as Hr.
  rewrite Next_Tokens in Hnext.
  destruct (Tokens group) as [|t ts] eqn:HT; [done|].
  injection Hnext as -> <-.
  pose proof (Tokens_advance group) as Hadv. rewrite HT in Hadv. simpl in Hadv.
  destruct fuel as [|fuel]; [lia|]. simpl in Hfuel.
  assert (H0 : 0 < length (heap p)).
  { destruct (ok_root _ (inv_heap _ Hinv)) as (? & ? & _).
    by eapply lookup_lt_Some. }
  (* the section token *)
  pose proof (inlined_root p Hinv) as [Hb0 _].
  set (p0 := mkParser (heap p) (root p) (root p) (onAdd p)) in *.
  assert (Hc0 : curr p0 = Some 0) by done.
  pose proof (after_add_builds p0 0 NODE_SECTION [Token_Text token]
                (b_inv _ _ Hb0) Hc0 ltac:(done) ltac:(done)) as HbA.
  set (pA := after_add p0 0 NODE_SECTION [Token_Text token]) in *.
  assert (HnewA : heap pA !! length (heap p) =
                  Some (mkNode NODE_SECTION (Token_Text token) (Some 0) [])).
  { unfold pA, after_add. simpl. by apply grow_new. }
  assert (HlenA : length (heap pA) = S (length (heap p))).
  { unfold pA, after_add. simpl. rewrite grow_length.
    rewrite fires_not_text by done. lia. }
  (* the rest of the line *)
  destruct (proj1 (wp_ok _ _ _)
              (inlineLoop_spec fuel (advance group) pA (b_inv _ _ HbA)
                 ltac:(rewrite Hadv; lia)))
    as ([] & p1 & Heq1 & Hb1 & Hf1 & Hcurr1 & _).
  assert (HrA : root pA = Some 0) by done.
  assert (HcA : curr pA = Some 0) by done.
  assert (Hfresh1 : ∀ l n, length (heap p) ≤ l → heap p1 !! l = Some n →
                           Parent n = Some 0).
  { intros l n Hl Hn.
    destruct (decide (l = length (heap p))) as [->|Hne].
    - destruct (ext_old _ _ (b_ext _ _ Hb1) _ _ HnewA)
        as (n' & Hn' & _ & _ & Hp & _).
      assert (n' = n) as -> by congruence. by rewrite Hp.
    - destruct (Hf1 l n ltac:(lia) Hn) as [Hp|Hp]; rewrite Hp; done. }
  assert (Hc1 : curr p1 = Some 0) by (by destruct Hcurr1 as [->| ->]).
  exists p1. split.
  { unfold inlineLoop; fold inlineLoop. rewrite Next_Tokens, HT, Hkind.
    erewrite bind_Ok by reflexivity.
    erewrite bind_Ok by (apply addNode_eq with (c := 0); done).
    exact Heq1. }
  rewrite Hr. split; [done|].
  split; [by rewrite (b_root _ _ Hb1)|]. split.
  { destruct (ext_old _ _ (b_ext _ _ Hb1) _ _ HnewA)
      as (nd & Hnd & Hk & Ht & Hp & _). exists nd. done. }
  split; [done|].
  (* the lines that follow *)
  intros i lines Hflat.
  set (p1c := mkParser (heap p1) (root p1) (curr p1) None).
  assert (Hinv1c : inv p1c).
  { eapply same_tree_inv; [|apply Hb1]. done. }
  destruct (proj1 (wp_ok _ _ _)
              (flat_lines lines i (level group) p1c Hinv1c Hc1 Hflat))
    as (l2 & p2 & Heq2 & _ & Hc2 & He2 & Hf2).
  exists l2, p2. split.
  { erewrite bind_Ok by apply clearHook_eq. exact Heq2. }
  split; [done|].
  eapply (fresh_root_trans (heap p) (heap p1)); try done.
Qed.

Lemma section_resets_to_root_witness :
  ∃ p1,
    inlineLoop 3
      (mkTokenGroup [tx TOKEN_TEXT "a"; tx TOKEN_SECTION "s"; tx TOKEN_TEXT "b"]
         1%Z 1)
      (mkParser [mkNode NODE_GROUP "" None [1];
                 mkNode NODE_GROUP "" (Some 0) [2];
                 mkNode NODE_TEXT "a" (Some 1) []]
         (Some 0) (Some 1) None) = Ok (tt, p1) ∧
    curr p1 = Some 0 ∧ root p1 = Some 0 ∧
    (∃ nd, heap p1 !! 3 = Some nd ∧ Kind nd = NODE_SECTION ∧
           Text nd = "s" ∧ Parent nd = Some 0) ∧
    (∀ l n, 3 ≤ l → heap p1 !! l = Some n → Parent n = Some 0) ∧
    ∀ i lines, flatLines i 1%Z lines →
      ∃ l2 p2,
        (run clearHook ; groupsLoop i lines 1%Z) p1 = Ok (l2, p2) ∧
        curr p2 = Some 0 ∧
        ∀ l n, 3 ≤ l → heap p2 !! l = Some n → Parent n = Some 0.
Proof.
  apply (section_resets_to_root
           (mkParser [mkNode NODE_GROUP "" None [1];
                      mkNode NODE_GROUP "" (Some 0) [2];
                      mkNode NODE_TEXT "a" (Some 1) []]
              (Some 0) (Some 1) None)
           3
           (mkTokenGroup
              [tx TOKEN_TEXT "a"; tx TOKEN_SECTION "s"; tx TOKEN_TEXT "b"]
              1%Z 1)
           (tx TOKEN_SECTION "s")
           (mkTokenGroup
              [tx TOKEN_TEXT "a"; tx TOKEN_SECTION "s"; tx TOKEN_TEXT "b"]
              1%Z 2)).
  - refine (proj1 (Parse_inv [tk TOKEN_INDENT; tx TOKEN_TEXT "a"; tk TOKEN_EOL]
                     (Some 0) _ _)).
    vm_compute. reflexivity.
  - reflexivity.
  - reflexivity.
  - vm_compute. lia.
Defined.

(** ** List grouping *)

(** C4: two consecutive lines of one list item each, at the same level,
    give one list node with exactly the two items as children, in order,
    and no second list node.  First for any state of the parser in which
    the node that is current after the change of level is not itself a
    list item: the two lines add three nodes, the list below the current
    node and its two items, and change nothing else.  Then for [Parse] on
    the two lines at any indentation [n]: the heap is the root, [n]
    groups, the list and its two items.  Last as a tree, at
    indentation 0. *)
Theorem list_grouping :
  (∀ i lastLevel lv a b p p1 c n,
     inv p → adjustLevel (lv - lastLevel)%Z p = Ok (tt, p1) →
     curr p1 = Some c → heap p1 !! c = Some n → Kind n ≠ NODE_LISTITEM →
     ∃ p',
       groupsLoop i [mkTokenGroup [tx TOKEN_LISTITEM a] lv 0;
                     mkTokenGroup [tx TOKEN_LISTITEM b] lv 0] lastLevel p =
         Ok (lv, p') ∧
       length (heap p') = length (heap p1) + 3 ∧
       heap p' !! length (heap p1) =
         Some (mkNode NODE_LIST "" (Some c)
                 [length (heap p1) + 1; length (heap p1) + 2]) ∧
       heap p' !! (length (heap p1) + 1) =
         Some (mkNode NODE_LISTITEM a (Some (length (heap p1))) []) ∧
       heap p' !! (length (heap p1) + 2) =
         Some (mkNode NODE_LISTITEM b (Some (length (heap p1))) []) ∧
       heap p' !! c = Some (push_Child (length (heap p1)) n) ∧
       ∀ l m, l ≠ c → heap p1 !! l = Some m → heap p' !! l = Some m) ∧
  (∀ n a b,
     ∃ p,
       Parse (replicate n (tk TOKEN_INDENT) ++
              [tx TOKEN_LISTITEM a; tk TOKEN_EOL] ++
              replicate n (tk TOKEN_INDENT) ++
              [tx TOKEN_LISTITEM b; tk TOKEN_EOL]) NewParser =
         Ok (Some 0, p) ∧
       length (heap p) = n + 4 ∧
       (∀ j, j ≤ n → ∃ nd, heap p !! j = Some nd ∧ Kind nd = NODE_GROUP) ∧
       heap p !! (n + 1) =
         Some (mkNode NODE_LIST "" (Some n) [n + 2; n + 3]) ∧
       heap p !! (n + 2) = Some (mkNode NODE_LISTITEM a (Some (n + 1)) []) ∧
       heap p !! (n + 3) = Some (mkNode NODE_LISTITEM b (Some (n + 1)) [])) ∧
  (∀ a b,
     ParseTree [tx TOKEN_LISTITEM a; tk TOKEN_EOL;
                tx TOKEN_LISTITEM b; tk TOKEN_EOL] =
       Ok (T NODE_GROUP ""
             [T NODE_LIST ""
                [T NODE_LISTITEM a []; T NODE_LISTITEM b []]])).
Proof.
  assert (Hgen : ∀ i lastLevel lv a b p p1 c n,
     inv p → adjustLevel (lv - lastLevel)%Z p = Ok (tt, p1) →
     curr p1 = Some c → heap p1 !! c = Some n → Kind n ≠ NODE_LISTITEM →
     ∃ p',
       groupsLoop i [mkTokenGroup [tx TOKEN_LISTITEM a] lv 0;
                     mkTokenGroup [tx TOKEN_LISTITEM b] lv 0] lastLevel p =
         Ok (lv, p') ∧ root p' = root p1 ∧
       length (heap p') = length (heap p1) + 3 ∧
       heap p' !! length (heap p1) =
         Some (mkNode NODE_LIST "" (Some c)
                 [length (heap p1) + 1; length (heap p1) + 2]) ∧
       heap p' !! (length (heap p1) + 1) =
         Some (mkNode NODE_LISTITEM a (Some (length (heap p1))) []) ∧
       heap p' !! (length (heap p1) + 2) =
         Some (mkNode NODE_LISTITEM b (Some (length (heap p1))) []) ∧
       heap p' !! c = Some (push_Child (length (heap p1)) n) ∧
       ∀ l m, l ≠ c → heap p1 !! l = Some m → heap p' !! l = Some m).
  { intros i lastLevel lv a b p p1 c n Hinv Heq Hc Hn Hk.
    eexists. split; [by eapply two_items_eq|]. split; [done|].
    apply (two_items_heap (heap p1) c n a b Hn). }
  split; [|split].
  - intros i lastLevel lv a b p p1 c n Hinv Heq Hc Hn Hk.
    destruct (Hgen i lastLevel lv a b p p1 c n Hinv Heq Hc Hn Hk)
      as (p' & ? & _ & ?). by exists p'.
  - intros n a b.
    set (ind := replicate n (tk TOKEN_INDENT)).
    assert (Hind : allIndent ind).
    { apply Forall_forall. intros t Ht.
      apply elem_of_replicate in Ht as [-> _]. done. }
    assert (Hlen : length ind = n) by apply length_replicate.
    (* the two groups *)
    assert (Hsplit : ∀ fuel,
      splitLoop (S (S fuel))
        (ind ++ [tx TOKEN_LISTITEM a; tk TOKEN_EOL] ++
         ind ++ [tx TOKEN_LISTITEM b; tk TOKEN_EOL]) [] =
      Ok [mkTokenGroup [tx TOKEN_LISTITEM a] (Z.of_nat n) 0;
          mkTokenGroup [tx TOKEN_LISTITEM b] (Z.of_nat n) 0]).
    { intros fuel.
      rewrite (splitLoop_line _ ind [tx TOKEN_LISTITEM a] (tk TOKEN_EOL)
                 (ind ++ [tx TOKEN_LISTITEM b; tk TOKEN_EOL]));
        [|done|done|by repeat constructor|done].
      rewrite (splitLoop_line _ ind [tx TOKEN_LISTITEM b] (tk TOKEN_EOL) []);
        [|done|done|by repeat constructor|done].
      rewrite Hlen. by destruct fuel. }
    (* the groups opened by the first line *)
    destruct (proj1 (wp_ok _ _ _) (times_open n init 0 inv_init eq_refl))
      as ([] & p1 & Heq1 & Hb1 & Hlen1 & Hcurr1 & Hnodes1).
    simpl in Hlen1, Hcurr1, Hnodes1.
    assert (Hcurr1' : curr p1 = Some n).
    { rewrite Hcurr1. by destruct n. }
    assert (Hgroups : ∀ j, j ≤ n → ∃ nd, heap p1 !! j = Some nd ∧
                                        Kind nd = NODE_GROUP).
    { intros [|j] Hj.
      - destruct (ext_old _ _ (b_ext _ _ Hb1) 0 _ eq_refl)
          as (nd & Hnd & Hk & _). exists nd. done.
      - destruct (Hnodes1 j ltac:(lia)) as (nd & Hnd & Hk & _).
        exists nd. done. }
    destruct (Hgroups n ltac:(lia)) as (nd & Hnd & Hkd).
    destruct (Hgen 0 0%Z (Z.of_nat n) a b init p1 n nd inv_init)
      as (p' & Heq' & Hr' & Hlen' & HL & HA & HB & Hc' & Hold);
      [by rewrite adjust_open_eq|done|done|by rewrite Hkd|].
    exists p'. split.
    { rewrite Parse_eq. rewrite decide_False by (rewrite !length_app; simpl; lia).
      assert (Hfuel : ∃ fuel,
        length (ind ++ [tx TOKEN_LISTITEM a; tk TOKEN_EOL] ++
                ind ++ [tx TOKEN_LISTITEM b; tk TOKEN_EOL]) = S (S fuel)).
      { exists (n + n + 2). rewrite !length_app. simpl. lia. }
      destruct Hfuel as [fuel ->]. rewrite Hsplit, Heq'.
      by rewrite Hr', (b_root _ _ Hb1). }
    rewrite Hlen1 in *.
    split; [lia|]. split.
    { intros j Hj. destruct (Hgroups j Hj) as (ndj & Hndj & Hkj).
      destruct (decide (j = n)) as [->|Hne].
      - eexists. split; [exact Hc'|]. simpl. congruence.
      - exists ndj. split; [by apply Hold|done]. }
    replace (n + 1) with (1 + n) by lia.
    replace (n + 2) with (1 + n + 1) by lia.
    replace (n + 3) with (1 + n + 2) by lia. done.
  - intros a b. vm_compute. reflexivity.
Qed.

Lemma list_grouping_witness :
  ∃ p',
    groupsLoop 1 [mkTokenGroup [tx TOKEN_LISTITEM "first"] 1%Z 0;
                  mkTokenGroup [tx TOKEN_LISTITEM "second"] 1%Z 0] 0%Z
      (mkParser [mkNode NODE_GROUP "" None [1];
                 mkNode NODE_TEXT "t" (Some 0) []]
         (Some 0) (Some 0) None) = Ok (1%Z, p') ∧
    length (heap p') = 3 + 3 ∧
    heap p' !! 3 = Some (mkNode NODE_LIST "" (Some 2) [3 + 1; 3 + 2]) ∧
    heap p' !! (3 + 1) = Some (mkNode NODE_LISTITEM "first" (Some 3) []) ∧
    heap p' !! (3 + 2) = Some (mkNode NODE_LISTITEM "second" (Some 3) []) ∧
    heap p' !! 2 = Some (push_Child 3 (mkNode NODE_GROUP "" (Some 0) [])) ∧
    ∀ l m, l ≠ 2 →
      [mkNode NODE_GROUP "" None [1; 2];
       mkNode NODE_TEXT "t" (Some 0) [];
       mkNode NODE_GROUP "" (Some 0) []] !! l = Some m →
      heap p' !! l = Some m.
Proof.
  apply (proj1 list_grouping 1 0%Z 1%Z "first" "second"
           (mkParser [mkNode NODE_GROUP "" None [1];
                      mkNode NODE_TEXT "t" (Some 0) []]
              (Some 0) (Some 0) None)
           (mkParser [mkNode NODE_GROUP "" None [1; 2];
                      mkNode NODE_TEXT "t" (Some 0) [];
                      mkNode NODE_GROUP "" (Some 0) []]
              (Some 0) (Some 2) None)
           2 (mkNode NODE_GROUP "" (Some 0) [])).
  - refine (proj1 (Parse_inv [tx TOKEN_TEXT "t"; tk TOKEN_EOL] (Some 0) _ _)).
    vm_compute. reflexivity.
  - vm_compute. reflexivity.
  - reflexivity.
  - reflexivity.
  - discriminate.
Defined.
